(** * subcmds/info.py: the [repo info] subcommand

    A shallow embedding of [Info] (per-project report, divergence report and
    cross-project overview) together with the Python 2 [str] primitives it
    relies on, followed by the properties of the report engine.

    Layout: Part I holds the definitions (string primitives, data model,
    the effect monad, the subcommand itself); Part II holds the lemmas. *)

From Stdlib Require Import List String Ascii Bool Arith Lia.
From Stdlib Require Import Decimal DecimalString.
From Stdlib Require Import Permutation.
Import ListNotations.

Set Implicit Arguments.
Open Scope list_scope.
Open Scope string_scope.

(* ================================================================== *)
(** * Part I. Definitions *)
(* ================================================================== *)

(** ** Python 2 byte-string primitives

    [gc.stdout] and everything derived from it is a Python 2 [str], a
    sequence of bytes; [string] (a sequence of [ascii]) has the same shape. *)

Module PyStr.

Definition LF : ascii := "010"%char.
Definition CR : ascii := "013"%char.

(** [c.isspace()] in the C locale: space, \t, \n, \v, \f, \r. *)
Definition isspace (c : ascii) : bool :=
  match c with
  | " "%char | "009"%char | "010"%char
  | "011"%char | "012"%char | "013"%char => true
  | _ => false
  end.

Definition is_eol (c : ascii) : bool := Ascii.eqb c LF || Ascii.eqb c CR.

(** [s.splitlines()]: lines are ended by \n, \r or \r\n, the terminator is
    dropped, and no empty line is reported after a final terminator. *)
Fixpoint splitlines (s : string) : list string :=
  match s with
  | "" => []
  | String c s' =>
      if Ascii.eqb c LF then "" :: splitlines s'
      else if Ascii.eqb c CR then
        match s' with
        | String d s'' =>
            if Ascii.eqb d LF then "" :: splitlines s''
            else "" :: splitlines s'
        | "" => [""]
        end
      else
        match splitlines s' with
        | [] => [String c ""]
        | l :: ls => String c l :: ls
        end
  end.

(** [s.split()] with no separator: maximal runs of non-whitespace. *)
Fixpoint split (s : string) : list string :=
  match s with
  | "" => []
  | String c s' =>
      if isspace c then split s'
      else
        match s' with
        | "" => [String c ""]
        | String d _ =>
            if isspace d then String c "" :: split s'
            else
              match split s' with
              | [] => [String c ""]
              | w :: ws => String c w :: ws
              end
        end
  end.

(** [sep.join(words)]; [string.join(words)] is [join " " words] and
    [string.join(words, sep)] is [join sep words]. *)
Fixpoint join (sep : string) (words : list string) : string :=
  match words with
  | [] => ""
  | [w] => w
  | w :: ws => w ++ sep ++ join sep ws
  end.

(** [s.replace(old, new)] for a one-character [old]. *)
Fixpoint replace (old : ascii) (new : string) (s : string) : string :=
  match s with
  | "" => ""
  | String c s' =>
      if Ascii.eqb c old then new ++ replace old new s'
      else String c (replace old new s')
  end.

Fixpoint lstrip (s : string) : string :=
  match s with
  | "" => ""
  | String c s' => if isspace c then lstrip s' else s
  end.

Fixpoint rstrip (s : string) : string :=
  match s with
  | "" => ""
  | String c s' =>
      match rstrip s' with
      | "" => if isspace c then "" else String c ""
      | r => String c r
      end
  end.

(** [s.strip()]. *)
Definition strip (s : string) : string := rstrip (lstrip s).

(** [sub in s]. *)
Fixpoint contains (sub s : string) : bool :=
  match s with
  | "" => String.prefix sub ""
  | String _ s' => String.prefix sub s || contains sub s'
  end.

(** [str(n)] for a length. *)
Definition str (n : nat) : string := NilEmpty.string_of_uint (Nat.to_uint n).

Fixpoint spaces (n : nat) : string :=
  match n with
  | O => ""
  | S n' => String " " (spaces n')
  end.

(** ['%-Ns' % s]: left-justified in a field of at least [width]. *)
Definition ljust (width : nat) (s : string) : string :=
  s ++ spaces (width - String.length s).

(** ['%Nd' % n]: right-justified in a field of at least [width]. *)
Definition rjust (width : nat) (s : string) : string :=
  spaces (width - String.length s) ++ s.

(** [xs[i]] on a list: [IndexError] is [None]. *)
Definition index {A : Type} (xs : list A) (i : nat) : option A := nth_error xs i.

(** [xs[1:]]. *)
Definition slice1 {A : Type} (xs : list A) : list A := List.tl xs.

(** Shape predicates used to describe lines and subjects. *)
Definition starts_ws (s : string) : bool :=
  match s with
  | "" => false
  | String c _ => isspace c
  end.

Fixpoint ends_ws (s : string) : bool :=
  match s with
  | "" => false
  | String c "" => isspace c
  | String _ s' => ends_ws s'
  end.

(** Two adjacent whitespace characters somewhere in [s]. *)
Fixpoint ws_run (s : string) : bool :=
  match s with
  | "" => false
  | String c s' => (isspace c && starts_ws s') || ws_run s'
  end.

(** Every whitespace character of [s] is the space character. *)
Fixpoint ws_is_space (s : string) : bool :=
  match s with
  | "" => true
  | String c s' => (negb (isspace c) || Ascii.eqb c " ") && ws_is_space s'
  end.

(** The only whitespace of [s] is isolated space characters. *)
Definition only_single_spaces (s : string) : bool :=
  ws_is_space s && negb (ws_run s).

Fixpoint all_ws (s : string) : bool :=
  match s with
  | "" => true
  | String c s' => isspace c && all_ws s'
  end.

Fixpoint has_char (a : ascii) (s : string) : bool :=
  match s with
  | "" => false
  | String c s' => Ascii.eqb c a || has_char a s'
  end.

(** The tokens of [s] put together again with single spaces. *)
Definition rejoin (s : string) : string := join " " (split s).

(** [s] neither starts nor ends with whitespace. *)
Definition trimmed (s : string) : bool :=
  negb (starts_ws s) && negb (ends_ws s).

(** A token: non-empty and free of whitespace. *)
Fixpoint no_ws (s : string) : bool :=
  match s with
  | "" => true
  | String c s' => negb (isspace c) && no_ws s'
  end.

Definition is_token (s : string) : bool :=
  negb (String.eqb s "") && no_ws s.

Fixpoint no_eol (s : string) : bool :=
  match s with
  | "" => true
  | String c s' => negb (is_eol c) && no_eol s'
  end.

(** Lines written out one per line, each ended by \n, as git prints
    them. *)
Fixpoint unlines (lines : list string) : string :=
  match lines with
  | [] => ""
  | l :: ls => l ++ String LF (unlines ls)
  end.

End PyStr.

Import PyStr.

(** ** Data model *)

(** Python objects are compared by identity; a project is known by its
    address in the object store. *)
Definition addr := nat.

(** [ReviewableBranch], as far as [printOverview] reads it. *)
Module ReviewableBranch.
Record t : Type := mk {
  name : string;
  project : addr;           (* back-reference to the owning Project *)
  commits : list string;    (* one-line log entries *)
  date : string
}.
End ReviewableBranch.

(** [Project], as far as [Info] reads it. *)
Module Project.
Record t : Type := mk {
  name : string;
  worktree : string;
  relpath : string;
  revisionExpr : string;
  CurrentBranch : option string;            (* None on a detached HEAD *)
  GetBranches_keys : list string;           (* GetBranches().keys(), dict order *)
  GetUploadableBranch : string -> option ReviewableBranch.t
}.
End Project.

(** The parsed command-line options. *)
Module Options.
Record t : Type := mk {
  all : bool;              (* -a *)
  overview : bool;         (* -o *)
  current_branch : bool    (* -b *)
}.
End Options.

(** What [Execute] reads from the manifest. *)
Record Manifest : Type := mkManifest {
  default_revisionExpr : string;
  mergeBranch : string
}.

(** The named printers set up in [Execute], and [out.nl()]. *)
Inductive Style : Type := Heading | Headtext | Redtext | Sha | Text | Dimtext.

Inductive Out : Type :=
| Print (st : Style) (s : string)
| Nl.

Inductive exn : Type :=
| IndexError
| NoSuchProjectError
| OtherError.      (* any exception the subcommand has no handler for *)

Inductive Result (A : Type) : Type :=
| Ok (a : A)
| Raise (e : exn).
Arguments Ok {A} a.
Arguments Raise {A} e.

(** A finished [GitCommand]: the exit status [Wait()] returns and the
    captured streams. *)
Record GitResult : Type := mkGitResult {
  rc : nat;
  stdout : string;
  stderr : string
}.

(** ** The effect monad

    The subcommand runs git commands, writes to the pager and may raise.
    A computation threads the state of the outside world, the log of the
    commands issued and the text written so far, and ends normally or with
    an exception; what was written before an exception stays written. *)

Section Effects.

Variable World : Type.

Record State : Type := mkState {
  world : World;
  issued : list (addr * list string * GitResult);
                                        (* commands run with what they
                                           answered, oldest first *)
  output : list Out                     (* text written, oldest first *)
}.

Definition M (A : Type) : Type := State -> Result A * State.

Definition ret {A : Type} (a : A) : M A := fun st => (Ok a, st).

Definition bind {A B : Type} (m : M A) (k : A -> M B) : M B :=
  fun st =>
    match m st with
    | (Ok a, st') => k a st'
    | (Raise e, st') => (Raise e, st')
    end.

Definition raise {A : Type} (e : exn) : M A := fun st => (Raise e, st).

Definition emit (o : Out) : M unit :=
  fun st => (Ok tt, mkState (world st) (issued st) (output st ++ [o])%list).

(** The state after more text has been written. *)
Definition write (st : State) (evs : list Out) : State :=
  mkState (world st) (issued st) (output st ++ evs)%list.

(** [xs[i]] as a computation. *)
Definition item {A : Type} (xs : list A) (i : nat) : M A :=
  match index xs i with
  | Some x => ret x
  | None => raise IndexError
  end.

End Effects.

Arguments ret {World A} a.
Arguments raise {World A} e.
Arguments emit {World} o.
Arguments item {World A} xs i.
Arguments write {World} st evs.

Declare Scope py_scope.
Delimit Scope py_scope with py.
Notation "x <- c1 ;; c2" := (bind c1 (fun x => c2))
  (at level 100, c1 at next level, right associativity) : py_scope.
Notation "c1 ;; c2" := (bind c1 (fun _ => c2))
  (at level 100, right associativity) : py_scope.
Open Scope py_scope.

(** [for x in xs: body]. *)
Fixpoint for_ {World A : Type} (xs : list A) (body : A -> M World unit)
  : M World unit :=
  match xs with
  | [] => ret tt
  | x :: xs' => body x ;; for_ xs' body
  end.

(** [for x in xs: body] with a variable [s] carried from one turn to the
    next. *)
Fixpoint for_with {World A S : Type} (xs : list A) (s : S)
  (body : S -> A -> M World S) : M World S :=
  match xs with
  | [] => ret s
  | x :: xs' => s' <- body s x ;; for_with xs' s' body
  end.

(** ** The subcommand *)

Section Info.

Variable World : Type.

(** [GitCommand(project, args, capture_stdout=True, capture_stderr=True)]
    followed by [Wait()], as the environment answers it: a command that
    fails ends with a non-zero exit status and raises nothing. *)
Variable git : World -> addr -> list string -> GitResult * World.

(** The object store: the project at each address. *)
Variable heap : addr -> Project.t.

(** [self.GetProjects(args)]. *)
Variable GetProjects : list string -> Result (list addr).

Variable manifest : Manifest.

Local Abbreviation IO := (M World).

Definition GitCommand (project : addr) (args : list string) : IO GitResult :=
  fun st =>
    let (r, w) := git (world st) project args in
    (Ok r, mkState w (issued st ++ [(project, args, r)])%list (output st)).

Definition heading (s : string) : IO unit := emit (Print Heading s).
Definition headtext (s : string) : IO unit := emit (Print Headtext s).
Definition redtext (s : string) : IO unit := emit (Print Redtext s).
Definition sha (s : string) : IO unit := emit (Print Sha s).
Definition text (s : string) : IO unit := emit (Print Text s).
Definition dimtext (s : string) : IO unit := emit (Print Dimtext s).
Definition nl : IO unit := emit Nl.

(** [for line in lines: acc.append(f(line))]. *)
Definition append_each {A B : Type} (f : A -> B) (lines : list A) : list B :=
  fold_left (fun acc line => (acc ++ [f line])%list) lines [].

(** info.py 103-111. *)
Definition localBranches (project : addr) : IO (list string) :=
  gc <- GitCommand project ["branch"] ;;
  ret (append_each (fun line => strip (replace "*" "" line))
                   (splitlines (stdout gc))).

(** info.py 120-124: the scan stops at the first line holding "->". *)
Fixpoint isOnBranch (lines : list string) : bool :=
  match lines with
  | [] => false
  | line :: rest => if contains "->" line then true else isOnBranch rest
  end.

(** What [findRemoteLocalDiff] knows once its queries are done. *)
Record DivergenceResult : Type := mkDivergence {
  logTarget : string;
  localCommits : list string;
  originCommits : list string
}.

(** info.py 113-143: fetch, pick the comparison target, run both range
    queries. *)
Definition analyzeDivergence (project : addr) : IO DivergenceResult :=
  GitCommand project ["fetch"; "--all"] ;;
  gc <- GitCommand project ["branch"; "-r"] ;;
  let target :=
    if isOnBranch (splitlines (stdout gc))
    then "origin/" ++ Project.revisionExpr (heap project)
    else Project.revisionExpr (heap project) in
  gc <- GitCommand project ["log"; "--pretty=oneline"; target ++ ".."] ;;
  let localCommits := append_each (fun line => line) (splitlines (stdout gc)) in
  gc <- GitCommand project ["log"; "--pretty=oneline"; ".." ++ target] ;;
  let originCommits := append_each (fun line => line) (splitlines (stdout gc)) in
  ret (mkDivergence target localCommits originCommits).

(** info.py 151-154 and 164-167: one commit line of the divergence
    report. *)
Definition printCommit (c : string) : IO unit :=
  let split := split c in
  h <- item split 0 ;;
  sha (h ++ " ") ;;
  text (join " " (slice1 split)) ;;
  nl.

(** info.py 145-167. *)
Definition printDivergence (d : DivergenceResult) : IO unit :=
  heading "Local Commits: " ;;
  redtext (str (List.length (localCommits d))) ;;
  dimtext " (on current branch)" ;;
  nl ;;
  for_ (localCommits d) printCommit ;;
  text "----------------------------" ;;
  nl ;;
  heading "Remote Commits: " ;;
  redtext (str (List.length (originCommits d))) ;;
  nl ;;
  for_ (originCommits d) printCommit.

(** info.py 113-167. *)
Definition findRemoteLocalDiff (project : addr) : IO unit :=
  d <- analyzeDivergence project ;;
  printDivergence d.

(** info.py 79-101: the body of the loop over the resolved projects. *)
Definition printProject (opt : Options.t) (p : addr) : IO unit :=
  heading "Project: " ;;
  headtext (Project.name (heap p)) ;;
  nl ;;
  heading "Mount path: " ;;
  headtext (Project.worktree (heap p)) ;;
  nl ;;
  heading "Current revision: " ;;
  headtext (Project.revisionExpr (heap p)) ;;
  nl ;;
  localBranches <- localBranches p ;;
  heading "Local Branches: " ;;
  redtext (str (List.length localBranches)) ;;
  text " [" ;;
  text (join ", " localBranches) ;;
  text "]" ;;
  nl ;;
  if Options.all opt then findRemoteLocalDiff p else ret tt.

(** info.py 68-101. *)
Definition printLocalInfo (opt : Options.t) (args : list string) : IO unit :=
  let projects := if (0 <? List.length args)%nat then args else ["."] in
  match GetProjects projects with
  | Raise NoSuchProjectError => ret tt
  | Raise e => raise e
  | Ok projs => for_ projs (printProject opt)
  end.

(** [x.name == project.CurrentBranch]. *)
Definition is_current (project : addr) (x : ReviewableBranch.t) : bool :=
  match Project.CurrentBranch (heap project) with
  | Some b => String.eqb (ReviewableBranch.name x) b
  | None => false
  end.

(** [[x for x in br if x]]: [None] is the only false value here. *)
Fixpoint truthy {A : Type} (br : list (option A)) : list A :=
  match br with
  | [] => []
  | Some x :: br' => x :: truthy br'
  | None :: br' => truthy br'
  end.

(** info.py 172-176: the branches one project adds to the overview. *)
Definition projectBranches (opt : Options.t) (project : addr)
  : list ReviewableBranch.t :=
  let br := map (fun x => Project.GetUploadableBranch (heap project) x)
                (Project.GetBranches_keys (heap project)) in
  let br := truthy br in
  if Options.current_branch opt
  then filter (is_current project) br
  else br.

(** info.py 170-177: [all], grown by [extend] project after project. *)
Definition collectBranches (opt : Options.t) (projs : list addr)
  : list ReviewableBranch.t :=
  fold_left (fun all project => (all ++ projectBranches opt project)%list) projs [].

(** info.py 204-208: one commit line of the overview. *)
Definition printOverviewCommit (commit : string) : IO unit :=
  let split := split commit in
  text (spaces 38 ++ "-" ++ " ") ;;
  h <- item split 0 ;;
  sha (h ++ " ") ;;
  text (join " " (slice1 split)) ;;
  nl.

(** info.py 195-200. *)
Definition branchLine (project : addr) (branch : ReviewableBranch.t) : string :=
  let commits := ReviewableBranch.commits branch in
  (if is_current project branch then "*" else " ")
    ++ " " ++ ljust 33 (ReviewableBranch.name branch)
    ++ " (" ++ rjust 2 (str (List.length commits))
    ++ " commit" ++ (if negb (List.length commits =? 1)%nat then "s" else " ")
    ++ ", " ++ ReviewableBranch.date branch ++ ")".

(** info.py 187-208: one turn of the loop over [all]; [project] is the
    project of the previous turn, [None] before the first. *)
Definition printBranch (project : option addr) (branch : ReviewableBranch.t)
  : IO (option addr) :=
  let owner := ReviewableBranch.project branch in
  project' <-
    (if match project with
        | Some p => negb (p =? owner)%nat
        | None => true
        end
     then
       nl ;;
       headtext (Project.relpath (heap owner)) ;;
       nl ;;
       ret owner
     else
       ret (match project with Some p => p | None => owner end)) ;;
  text (branchLine project' branch) ;;
  nl ;;
  for_ (ReviewableBranch.commits branch) printOverviewCommit ;;
  ret (Some project').

(** info.py 179-208. *)
Definition renderOverview (all : list ReviewableBranch.t) : IO unit :=
  match all with
  | [] => ret tt
  | _ :: _ =>
      nl ;;
      heading "Projects Overview" ;;
      for_with all None printBranch ;;
      ret tt
  end.

(** info.py 169-208. *)
Definition printOverview (opt : Options.t) (args : list string) : IO unit :=
  match GetProjects args with
  | Raise e => raise e
  | Ok projs => renderOverview (collectBranches opt projs)
  end.

(** info.py 43-66. *)
Definition Execute (opt : Options.t) (args : list string) : IO unit :=
  heading "Manifest branch: " ;;
  headtext (default_revisionExpr manifest) ;;
  nl ;;
  heading "Manifest merge branch: " ;;
  headtext (mergeBranch manifest) ;;
  nl ;;
  if negb (Options.overview opt)
  then printLocalInfo opt args
  else printOverview opt args.

End Info.

(** ** Vocabulary of the statements *)

(** The longest prefix of [xs] on which [f] holds. *)
Fixpoint take_while {A : Type} (f : A -> bool) (xs : list A) : list A :=
  match xs with
  | [] => []
  | x :: xs' => if f x then x :: take_while f xs' else []
  end.

(** A commit line with at least one token. *)
Definition has_token (c : string) : bool := negb (all_ws c).

(** What a commit line with a token adds to the report. *)
Definition commit_events (c : string) : list Out :=
  match split c with
  | [] => []
  | h :: rest => [Print Sha (h ++ " "); Print Text (join " " rest); Nl]
  end.

(** The bullet in front of each commit of the overview. *)
Definition bullet : Out := Print Text (spaces 38 ++ "-" ++ " ").

(** A run of the commit loop ends normally when every line has a token. *)
Definition loop_outcome (lines : list string) : Result unit :=
  if forallb has_token lines then Ok tt else Raise IndexError.

(** What the divergence report writes for a list of commit lines. *)
Definition commits_events (lines : list string) : list Out :=
  flat_map commit_events (take_while has_token lines).

(** What the overview writes for a list of commit lines; the bullet of a
    line without a token is written before the line is looked at. *)
Fixpoint overview_commits_events (lines : list string) : list Out :=
  match lines with
  | [] => []
  | c :: rest =>
      if has_token c
      then (bullet :: commit_events c ++ overview_commits_events rest)%list
      else [bullet]
  end.

(** The project headers found in a piece of output. *)
Fixpoint headers (evs : list Out) : list string :=
  match evs with
  | [] => []
  | Print Headtext s :: evs' => s :: headers evs'
  | _ :: evs' => headers evs'
  end.

(** The headers a sequence of branches calls for: one wherever the owner
    differs from the owner of the entry before. *)
Fixpoint boundaries (heap : addr -> Project.t) (prev : option addr)
  (all : list ReviewableBranch.t) : list string :=
  match all with
  | [] => []
  | b :: rest =>
      let owner := ReviewableBranch.project b in
      let here :=
        match prev with
        | Some p => if (p =? owner)%nat then []
                    else [Project.relpath (heap owner)]
        | None => [Project.relpath (heap owner)]
        end in
      (here ++ boundaries heap (Some owner) rest)%list
  end.

(** What one turn of the overview loop writes: the project header when
    the owner changes, the branch line, the commits. *)
Definition branch_events (heap : addr -> Project.t) (prev : option addr)
  (b : ReviewableBranch.t) : list Out :=
  let owner := ReviewableBranch.project b in
  let here :=
    match prev with
    | Some p => if (p =? owner)%nat then []
                else [Nl; Print Headtext (Project.relpath (heap owner)); Nl]
    | None => [Nl; Print Headtext (Project.relpath (heap owner)); Nl]
    end in
  (here ++ Print Text (branchLine heap owner b) :: Nl ::
   overview_commits_events (ReviewableBranch.commits b))%list.

(** What the overview loop writes; it goes no further than the first
    branch with a commit line without a token. *)
Fixpoint overview_events (heap : addr -> Project.t) (prev : option addr)
  (all : list ReviewableBranch.t) : list Out :=
  match all with
  | [] => []
  | b :: rest =>
      (branch_events heap prev b ++
       if forallb has_token (ReviewableBranch.commits b)
       then overview_events heap (Some (ReviewableBranch.project b)) rest
       else [])%list
  end.

(** How the overview loop ends, and with which project in hand. *)
Fixpoint overview_result (prev : option addr) (all : list ReviewableBranch.t)
  : Result (option addr) :=
  match all with
  | [] => Ok prev
  | b :: rest =>
      if forallb has_token (ReviewableBranch.commits b)
      then overview_result (Some (ReviewableBranch.project b)) rest
      else Raise IndexError
  end.

(** The filter [-b] puts on the uploadable branches of a project. *)
Definition keep (heap : addr -> Project.t) (opt : Options.t) (p : addr)
  (x : ReviewableBranch.t) : bool :=
  if Options.current_branch opt then is_current heap p x else true.

(** Every uploadable branch a project hands out points back at it. *)
Definition owned (heap : addr -> Project.t) : Prop :=
  forall (a : addr) (k : string) (x : ReviewableBranch.t),
    Project.GetUploadableBranch (heap a) k = Some x ->
    ReviewableBranch.project x = a.

(** The projects that contribute at least one branch to the overview. *)
Definition contributing (heap : addr -> Project.t) (opt : Options.t)
  (projs : list addr) : list addr :=
  filter (fun p => match projectBranches heap opt p with
                   | [] => false
                   | _ :: _ => true
                   end) projs.

(** The environment [git], except that every [fetch --all] ends the way
    [failed] says: another exit status, other captured text. *)
Definition with_fetch_result {World : Type} (failed : GitResult)
  (git : World -> addr -> list string -> GitResult * World)
  : World -> addr -> list string -> GitResult * World :=
  fun w p args =>
    let (r, w') := git w p args in
    match args with
    | ["fetch"; "--all"] => (failed, w')
    | _ => (r, w')
    end.

(** The parts of the divergence report. *)
Definition local_heading (n : nat) : list Out :=
  [Print Heading "Local Commits: "; Print Redtext (str n);
   Print Dimtext " (on current branch)"; Nl].

Definition remote_heading (n : nat) : list Out :=
  [Print Text "----------------------------"; Nl;
   Print Heading "Remote Commits: "; Print Redtext (str n); Nl].

(** What the divergence report writes: the local part, and the remote
    part once the local commit loop has come to its end. *)
Definition divergence_events (locals remotes : list string) : list Out :=
  (local_heading (List.length locals) ++ commits_events locals ++
   if forallb has_token locals
   then remote_heading (List.length remotes) ++ commits_events remotes
   else [])%list.

Definition divergence_outcome (locals remotes : list string) : Result unit :=
  if forallb has_token locals then loop_outcome remotes else Raise IndexError.

(** The two range queries against a comparison target. *)
Definition local_query (target : string) : list string :=
  ["log"; "--pretty=oneline"; target ++ ".."].

Definition remote_query (target : string) : list string :=
  ["log"; "--pretty=oneline"; ".." ++ target].

(** The commands of a log, without their answers. *)
Definition commands (log : list (addr * list string * GitResult))
  : list (addr * list string) := map fst log.

(** What [localBranches] makes of one line of [git branch]. *)
Definition branch_name (line : string) : string :=
  strip (replace "*" "" line).

(** ** A small workspace to run the subcommand on *)

Module Demo.

Definition topic : ReviewableBranch.t :=
  ReviewableBranch.mk "topic" 1
    ["1a2b3c add  the parser"; "4d5e6f fix typo"] "2023-01-02".

Definition wip : ReviewableBranch.t :=
  ReviewableBranch.mk "wip" 1 ["7a8b9c wip"] "2023-01-01".

Definition hack : ReviewableBranch.t :=
  ReviewableBranch.mk "hack" 3 ["abc first"; ""; "def second"] "2023-02-03".

(** Three checkouts: [1] has two branches ahead of upstream, [2] none,
    [3] one whose log holds an empty line. *)
Definition heap (a : addr) : Project.t :=
  match a with
  | 1 =>
      Project.mk "platform/build" "/src/build" "build" "master" (Some "wip")
        ["topic"; "stale"; "wip"]
        (fun k =>
           if String.eqb k "topic" then Some topic
           else if String.eqb k "wip" then Some wip
           else None)
  | 2 =>
      Project.mk "platform/docs" "/src/docs" "docs" "master" (Some "master")
        ["master"] (fun _ => None)
  | 3 =>
      Project.mk "platform/tools" "/src/tools" "tools" "stable" None
        ["hack"]
        (fun k => if String.eqb k "hack" then Some hack else None)
  | _ =>
      Project.mk "" "" "" "" None [] (fun _ => None)
  end.

(** The world is whether new remote refs have come in. The fetch fails
    (exit status 1) and leaves the world as it was. *)
Definition git (fetched : bool) (p : addr) (args : list string)
  : GitResult * bool :=
  match args with
  | ["fetch"; "--all"] =>
      (mkGitResult 1 "" "fatal: unable to access remote", fetched)
  | ["branch"; "-r"] =>
      (mkGitResult 0
         (unlines ["  origin/HEAD -> origin/master"; "  origin/master"]) "",
       fetched)
  | ["branch"] =>
      (mkGitResult 0 (unlines ["* master"; "  wip"; "  wip"]) "", fetched)
  | ["log"; "--pretty=oneline"; range] =>
      (mkGitResult 0
         (if String.eqb range "origin/master.."
          then unlines ["1a2b3c add  the parser"; "4d5e6f fix typo"]
          else if String.eqb range "..origin/master"
          then unlines ["9f8e7d upstream change"]
          else "") "",
       fetched)
  | _ => (mkGitResult 129 "" "usage: git", fetched)
  end.

(** A checkout without remotes whose log holds an empty line. *)
Definition blank_git (w : unit) (p : addr) (args : list string)
  : GitResult * unit :=
  match args with
  | ["log"; "--pretty=oneline"; range] =>
      (mkGitResult 0
         (if String.eqb range "stable.."
          then unlines ["abc first"; ""; "def second"]
          else "") "", w)
  | _ => (mkGitResult 0 "" "", w)
  end.

(** Every name resolves to the three checkouts, except "nope". *)
Definition GetProjects (args : list string) : Result (list addr) :=
  if existsb (String.eqb "nope") args
  then Raise NoSuchProjectError
  else match args with
       | ["docs"] => Ok [2]
       | ["tools"] => Ok [3]
       | ["build"; "docs"] => Ok [1; 2]
       | _ => Ok [1; 2; 3]
       end.

Definition manifest : Manifest := mkManifest "master" "master".

Definition start : State bool := mkState false [] [].
Definition blank_start : State unit := mkState tt [] [].

End Demo.

(** ** Vocabulary of the further properties *)

(** [s] without the characters on which [f] holds. *)
Fixpoint remove_if (f : ascii -> bool) (s : string) : string :=
  match s with
  | "" => ""
  | String c s' => if f c then remove_if f s' else String c (remove_if f s')
  end.

(** The strings of a list put end to end. *)
Fixpoint glue (ws : list string) : string :=
  match ws with
  | [] => ""
  | w :: ws' => w ++ glue ws'
  end.

(** The two lines [Execute] starts with. *)
Definition manifest_events (manifest : Manifest) : list Out :=
  [Print Heading "Manifest branch: ";
   Print Headtext (default_revisionExpr manifest); Nl;
   Print Heading "Manifest merge branch: ";
   Print Headtext (mergeBranch manifest); Nl].

(** The four lines of the per-project report, for the branch names
    [names]. *)
Definition project_events (heap : addr -> Project.t) (p : addr)
  (names : list string) : list Out :=
  [Print Heading "Project: "; Print Headtext (Project.name (heap p)); Nl;
   Print Heading "Mount path: "; Print Headtext (Project.worktree (heap p)); Nl;
   Print Heading "Current revision: ";
   Print Headtext (Project.revisionExpr (heap p)); Nl;
   Print Heading "Local Branches: "; Print Redtext (str (List.length names));
   Print Text " ["; Print Text (join ", " names); Print Text "]"; Nl].

(** The branch names [localBranches] reads off the answer to [git branch]
    given in the world [w]. *)
Definition names_in {World : Type}
  (git : World -> addr -> list string -> GitResult * World)
  (w : World) (p : addr) : list string :=
  map branch_name (splitlines (stdout (fst (git w p ["branch"])))).

(** A computation that leaves the text written so far in place. *)
Definition grows {World A : Type} (m : M World A) : Prop :=
  forall st, exists evs, output (snd (m st)) = (output st ++ evs)%list.

(* ================================================================== *)
(** * Part II. Properties *)
(* ================================================================== *)

(** ** The string primitives *)

Module PyStrFacts.

(** The primitives on the inputs they meet. *)

Example splitlines_terminators :
  splitlines ("a" ++ String CR (String LF ("b" ++ String CR
              ("c" ++ String LF (String LF "d")))))
  = ["a"; "b"; "c"; ""; "d"].
Proof. reflexivity. Qed.

Example splitlines_final_newline :
  splitlines ("a" ++ String LF "") = ["a"] /\ splitlines "" = [].
Proof. split; reflexivity. Qed.

Example split_runs :
  split "  1a2b3c  add   the parser " = ["1a2b3c"; "add"; "the"; "parser"] /\
  split "   " = [] /\ split "" = [].
Proof. repeat split. Qed.

Example strip_marker :
  strip (replace "*" "" "* master ") = "master" /\
  strip (replace "*" "" "  wip") = "wip".
Proof. split; reflexivity. Qed.

Example contains_arrow :
  contains "->" "  origin/HEAD -> origin/master" = true /\
  contains "->" "  origin/master" = false.
Proof. split; reflexivity. Qed.

Lemma prefix_app (p s : string) :
  String.prefix p s = true <-> exists post, s = p ++ post.
Proof.
  revert s; induction p as [|a p IH]; intros s.
  - destruct s; simpl; split; eauto.
  - destruct s as [|b s]; simpl.
    + split; [discriminate | intros [post H]; discriminate].
    + destruct (ascii_dec a b) as [->|Hab].
      * rewrite IH. split; intros [post H]; exists post.
        -- now rewrite H.
        -- now inversion H.
      * split; [discriminate | intros [post H]; inversion H; congruence].
Qed.

(** [sub in s] holds exactly when [s] can be cut around a copy of [sub]. *)
Lemma contains_spec (sub s : string) :
  contains sub s = true <-> exists pre post, s = pre ++ sub ++ post.
Proof.
  induction s as [|c s IH].
  - cbn [contains]. rewrite prefix_app. split.
    + intros [post H]. exists "", post. exact H.
    + intros [pre [post H]]. destruct pre; [eauto | discriminate].
  - cbn [contains]. rewrite orb_true_iff, prefix_app, IH. split.
    + intros [[post H] | [pre [post H]]].
      * exists "", post. exact H.
      * exists (String c pre), post. simpl. now rewrite H.
    + intros [pre [post H]]. destruct pre as [|d pre].
      * left. exists post. exact H.
      * right. exists pre, post. now inversion H.
Qed.

Lemma append_each_map {A B : Type} (f : A -> B) (lines : list A) :
  append_each f lines = map f lines.
Proof.
  unfold append_each.
  enough (G : forall acc,
             fold_left (fun acc line => (acc ++ [f line])%list) lines acc
             = (acc ++ map f lines)%list) by apply (G []).
  induction lines as [|x xs IH]; intros acc; simpl.
  - now rewrite app_nil_r.
  - rewrite IH, <- app_assoc. reflexivity.
Qed.

Lemma append_each_id {A : Type} (lines : list A) :
  append_each (fun line => line) lines = lines.
Proof. rewrite append_each_map. apply map_id. Qed.

Lemma isOnBranch_existsb (lines : list string) :
  isOnBranch lines = existsb (contains "->") lines.
Proof.
  induction lines as [|l ls IH]; simpl; [reflexivity|].
  destruct (contains "->" l); simpl; auto.
Qed.

(** The remote listing marks the project as on a branch exactly when one
    of its lines holds the arrow. *)
Lemma isOnBranch_spec (lines : list string) :
  isOnBranch lines = true <->
  exists line pre post, In line lines /\ line = pre ++ "->" ++ post.
Proof.
  rewrite isOnBranch_existsb, existsb_exists. split.
  - intros [l [Hin Hc]]. apply contains_spec in Hc.
    destruct Hc as [pre [post H]]. eauto.
  - intros [l [pre [post [Hin H]]]]. exists l. split; [exact Hin|].
    apply contains_spec. eauto.
Qed.

(** A line without an end-of-line byte, followed by \n, is split off
    whole. *)
Lemma splitlines_line (l rest : string) :
  no_eol l = true ->
  splitlines (l ++ String LF rest) = l :: splitlines rest.
Proof.
  induction l as [|c l IH]; intros H.
  - reflexivity.
  - simpl in H. apply andb_true_iff in H. destruct H as [Hc Hl].
    unfold is_eol in Hc. apply negb_true_iff, orb_false_iff in Hc.
    destruct Hc as [H1 H2].
    change (String c l ++ String LF rest) with (String c (l ++ String LF rest)).
    cbn [splitlines]. rewrite H1, H2, (IH Hl). reflexivity.
Qed.

(** [splitlines] gives back, in order, the lines git printed. *)
Lemma splitlines_unlines (lines : list string) :
  Forall (fun l => no_eol l = true) lines ->
  splitlines (unlines lines) = lines.
Proof.
  induction 1 as [|l ls Hl _ IH]; simpl.
  - reflexivity.
  - rewrite (splitlines_line _ _ Hl), IH. reflexivity.
Qed.

(** *** [strip] *)

Lemma lstrip_decomp (s : string) :
  exists pre, all_ws pre = true /\ s = pre ++ lstrip s.
Proof.
  induction s as [|c s [pre [Hp Hs]]]; simpl.
  - exists "". auto.
  - destruct (isspace c) eqn:E.
    + exists (String c pre). simpl. rewrite E, Hp, <- Hs. auto.
    + exists "". auto.
Qed.

Lemma lstrip_starts (s : string) : starts_ws (lstrip s) = false.
Proof.
  induction s as [|c s IH]; simpl; [reflexivity|].
  destruct (isspace c) eqn:E; [exact IH | simpl; exact E].
Qed.

Lemma ends_ws_cons (c : ascii) (s : string) :
  ends_ws (String c s) =
  match s with "" => isspace c | _ => ends_ws s end.
Proof. destruct s; reflexivity. Qed.

Lemma rstrip_decomp (s : string) :
  exists post, all_ws post = true /\ s = rstrip s ++ post.
Proof.
  induction s as [|c s [post [Hp Hs]]]; cbn [rstrip].
  - exists "". auto.
  - destruct (rstrip s) as [|d r] eqn:R.
    + simpl in Hs. subst post. destruct (isspace c) eqn:E.
      * exists (String c s). simpl. rewrite E, Hp. auto.
      * exists s. auto.
    + exists post. split; [exact Hp|]. simpl. simpl in Hs. now rewrite <- Hs.
Qed.

Lemma rstrip_ends (s : string) : ends_ws (rstrip s) = false.
Proof.
  induction s as [|c s IH]; cbn [rstrip]; [reflexivity|].
  destruct (rstrip s) as [|d r] eqn:R.
  - destruct (isspace c) eqn:E; simpl; auto.
  - rewrite ends_ws_cons. exact IH.
Qed.

Lemma rstrip_starts (s : string) :
  starts_ws s = false -> starts_ws (rstrip s) = false.
Proof.
  destruct s as [|c s]; cbn [rstrip]; [auto|]. simpl. intros E.
  destruct (rstrip s); [rewrite E|]; simpl; auto.
Qed.

(** [strip] cuts whitespace, and only whitespace, off both ends. *)
Lemma strip_spec (s : string) :
  (exists pre post,
      all_ws pre = true /\ all_ws post = true /\ s = pre ++ strip s ++ post)
  /\ trimmed (strip s) = true.
Proof.
  unfold strip, trimmed. split.
  - destruct (lstrip_decomp s) as [pre [Hp Hs]].
    destruct (rstrip_decomp (lstrip s)) as [post [Hq Hl]].
    exists pre, post. repeat split; auto. now rewrite <- Hl.
  - rewrite rstrip_starts by apply lstrip_starts.
    now rewrite rstrip_ends.
Qed.

Lemma has_char_app (a : ascii) (s t : string) :
  has_char a (s ++ t) = has_char a s || has_char a t.
Proof.
  induction s as [|c s IH]; simpl; [reflexivity|].
  now rewrite IH, orb_assoc.
Qed.

Lemma replace_removes (a : ascii) (s : string) :
  has_char a (replace a "" s) = false.
Proof.
  induction s as [|c s IH]; simpl; [reflexivity|].
  destruct (Ascii.eqb c a) eqn:E; simpl; [exact IH|].
  now rewrite E, IH.
Qed.

Lemma replace_absent (a : ascii) (new s : string) :
  has_char a s = false -> replace a new s = s.
Proof.
  induction s as [|c s IH]; simpl; [reflexivity|]. intros H.
  apply orb_false_iff in H. destruct H as [H1 H2].
  now rewrite H1, IH.
Qed.

Lemma strip_has_char (a : ascii) (s : string) :
  has_char a s = false -> has_char a (strip s) = false.
Proof.
  intros H. destruct (strip_spec s) as [[pre [post [_ [_ E]]]] _].
  rewrite E, !has_char_app in H.
  apply orb_false_iff in H. destruct H as [_ H].
  apply orb_false_iff in H. tauto.
Qed.

(** *** [split] and [join] *)

Lemma split_cons (c : ascii) (s : string) :
  split (String c s) =
  if isspace c then split s
  else match split s with
       | [] => [String c ""]
       | w :: ws => if starts_ws s then String c "" :: w :: ws
                    else String c w :: ws
       end.
Proof.
  cbn [split]. destruct (isspace c); [reflexivity|].
  destruct s as [|d s]; [reflexivity|].
  cbn [starts_ws]. destruct (isspace d) eqn:E.
  - cbn [split]. rewrite E. destruct (split s); [|reflexivity].
    (* nothing but whitespace follows *)
    reflexivity.
  - destruct (split (String d s)); reflexivity.
Qed.

(** A line yields no token exactly when it is empty or all whitespace. *)
Lemma split_nil_iff (s : string) : split s = [] <-> all_ws s = true.
Proof.
  induction s as [|c s IH]; [simpl; tauto|].
  rewrite split_cons. cbn [all_ws]. destruct (isspace c); simpl.
  - exact IH.
  - split; [|discriminate].
    destruct (split s); [discriminate|]. destruct (starts_ws s); discriminate.
Qed.

Lemma split_starts (s : string) :
  s <> "" -> starts_ws s = false -> split s <> [].
Proof.
  intros Hs Hw Hn. apply split_nil_iff in Hn.
  destruct s as [|c s]; [congruence|]. simpl in *.
  rewrite Hw in Hn. discriminate.
Qed.

(** Every token is non-empty and free of whitespace. *)
Lemma split_tokens (s : string) :
  Forall (fun w => is_token w = true) (split s).
Proof.
  induction s as [|c s IH]; [constructor|].
  rewrite split_cons. destruct (isspace c) eqn:E; [exact IH|].
  assert (T : is_token (String c "") = true)
    by (unfold is_token; simpl; now rewrite E).
  destruct (split s) as [|w ws]; [repeat constructor; exact T|].
  destruct (starts_ws s).
  - constructor; [exact T | exact IH].
  - inversion IH as [|? ? Hw Hws]; subst. constructor; [|exact Hws].
    unfold is_token in *. simpl. rewrite E. simpl.
    apply andb_true_iff in Hw. tauto.
Qed.

(** A token in front of whitespace is the first token of the line. *)
Lemma split_token_app (h : string) (d : ascii) (s : string) :
  is_token h = true -> isspace d = true ->
  split (h ++ String d s) = h :: split s.
Proof.
  intros Hh Hd. unfold is_token in Hh. apply andb_true_iff in Hh.
  destruct Hh as [Hne Hnw].
  induction h as [|c h IH]; [discriminate|].
  simpl in Hnw. apply andb_true_iff in Hnw. destruct Hnw as [Hc Hh].
  apply negb_true_iff in Hc.
  change (String c h ++ String d s) with (String c (h ++ String d s)).
  rewrite split_cons, Hc. destruct h as [|e h].
  - change ("" ++ String d s) with (String d s).
    rewrite (split_cons d s), Hd. cbn [starts_ws]. rewrite Hd.
    destruct (split s); reflexivity.
  - rewrite IH by (auto). simpl in Hh. apply andb_true_iff in Hh.
    destruct Hh as [He _]. apply negb_true_iff in He. simpl. now rewrite He.
Qed.

(** A token on its own is the only token. *)
Lemma split_token (h : string) : is_token h = true -> split h = [h].
Proof.
  unfold is_token. intros Hh. apply andb_true_iff in Hh.
  destruct Hh as [Hne Hnw].
  induction h as [|c h IH]; [discriminate|].
  simpl in Hnw. apply andb_true_iff in Hnw. destruct Hnw as [Hc Hh].
  apply negb_true_iff in Hc. rewrite split_cons, Hc.
  destruct h as [|e h]; [reflexivity|].
  rewrite IH by auto. simpl in Hh. apply andb_true_iff in Hh.
  destruct Hh as [He _]. apply negb_true_iff in He. simpl. now rewrite He.
Qed.

Lemma rejoin_cons (c : ascii) (s : string) :
  rejoin (String c s) =
  if isspace c then rejoin s
  else match split s with
       | [] => String c ""
       | _ :: _ => if starts_ws s then String c (String " " (rejoin s))
                   else String c (rejoin s)
       end.
Proof.
  unfold rejoin. rewrite split_cons. destruct (isspace c); [reflexivity|].
  destruct (split s) as [|w ws]; [reflexivity|].
  destruct (starts_ws s); [reflexivity|].
  destruct ws; reflexivity.
Qed.

Lemma rejoin_nonempty (s : string) : split s <> [] -> rejoin s <> "".
Proof.
  induction s as [|c s IH]; [simpl; congruence|].
  rewrite rejoin_cons, split_cons. destruct (isspace c); [exact IH|].
  intros _. destruct (split s); [discriminate|].
  destruct (starts_ws s); discriminate.
Qed.

(** What comes out of split-and-join: single spaces between tokens and
    nothing else. *)
Lemma rejoin_shape (s : string) :
  ws_is_space (rejoin s) = true /\ ws_run (rejoin s) = false /\
  starts_ws (rejoin s) = false /\ ends_ws (rejoin s) = false.
Proof.
  induction s as [|c s (I1 & I2 & I3 & I4)]; [simpl; auto|].
  rewrite rejoin_cons. destruct (isspace c) eqn:E; [auto|].
  destruct (split s) as [|w ws] eqn:S.
  - simpl. rewrite E. auto.
  - assert (N : rejoin s <> "") by (apply rejoin_nonempty; congruence).
    destruct (starts_ws s).
    + cbn [ws_is_space ws_run starts_ws]. rewrite E, I1, I2, I3.
      repeat split; auto.
      rewrite !ends_ws_cons. destruct (rejoin s); [congruence | exact I4].
    + cbn [ws_is_space ws_run starts_ws]. rewrite E, I1, I2.
      repeat split; auto.
      rewrite ends_ws_cons. destruct (rejoin s); [congruence | exact I4].
Qed.

(** On a string whose whitespace is single spaces and which does not end
    in one, split-and-join only drops a leading space. *)
Lemma rejoin_single_spaced (s : string) :
  ws_is_space s = true -> ws_run s = false -> ends_ws s = false ->
  rejoin s = if starts_ws s then
               match s with "" => "" | String _ s' => s' end
             else s.
Proof.
  induction s as [|c s IH]; [reflexivity|].
  cbn [ws_is_space ws_run starts_ws]. rewrite ends_ws_cons, rejoin_cons.
  intros H1 H2 H3.
  apply andb_true_iff in H1. destruct H1 as [Hc H1].
  apply orb_false_iff in H2. destruct H2 as [Hr H2].
  destruct (isspace c) eqn:E.
  - simpl in Hr. destruct s as [|d s]; [discriminate|].
    rewrite (IH H1 H2 H3), Hr. reflexivity.
  - assert (H3' : ends_ws s = false) by (destruct s; auto).
    specialize (IH H1 H2 H3').
    destruct (split s) as [|w ws] eqn:S.
    + apply split_nil_iff in S. destruct s as [|d s]; [reflexivity|].
      exfalso. clear - S H3'. revert d S H3'.
      induction s as [|e s IHs]; intros d S H; simpl in *.
      * rewrite andb_true_r in S. congruence.
      * apply andb_true_iff in S. destruct S as [_ S].
        exact (IHs e S H).
    + destruct (starts_ws s) eqn:W.
      * destruct s as [|d s]; [discriminate|]. rewrite IH.
        simpl in W. simpl in H1. rewrite W in H1. simpl in H1.
        apply andb_true_iff in H1. destruct H1 as [Hd _].
        apply Ascii.eqb_eq in Hd. now subst d.
      * now rewrite IH.
Qed.

(** Split-and-join leaves a string as it is exactly when its only
    whitespace is single spaces between tokens. *)
Lemma rejoin_fixed_iff (s : string) :
  rejoin s = s <-> only_single_spaces s = true /\ trimmed s = true.
Proof.
  unfold only_single_spaces, trimmed. split.
  - intros H. destruct (rejoin_shape s) as (I1 & I2 & I3 & I4).
    rewrite H in *. now rewrite I1, I2, I3, I4.
  - intros [H1 H2].
    apply andb_true_iff in H1. destruct H1 as [A B].
    apply andb_true_iff in H2. destruct H2 as [C D].
    apply negb_true_iff in B, C, D.
    rewrite (rejoin_single_spaced s A B D), C. reflexivity.
Qed.

(** Split-and-join changes every string holding two whitespace
    characters in a row. *)
Lemma rejoin_collapses (s : string) :
  ws_run s = true -> rejoin s <> s.
Proof.
  intros H E. destruct (rejoin_shape s) as (_ & I2 & _).
  rewrite E in I2. congruence.
Qed.

(** *** [strip] on what is already stripped *)

Lemma lstrip_fixed (s : string) : starts_ws s = false -> lstrip s = s.
Proof. destruct s as [|c s]; simpl; [reflexivity|]. now intros ->. Qed.

Lemma rstrip_fixed (s : string) : ends_ws s = false -> rstrip s = s.
Proof.
  induction s as [|c s IH]; [reflexivity|].
  rewrite PyStrFacts.ends_ws_cons. cbn [rstrip]. destruct s as [|d s].
  - simpl. now intros ->.
  - intros H. now rewrite (IH H).
Qed.

Lemma strip_fixed (s : string) : trimmed s = true -> strip s = s.
Proof.
  unfold trimmed, strip. intros H. apply andb_true_iff in H.
  destruct H as [A B]. apply negb_true_iff in A, B.
  now rewrite (lstrip_fixed _ A), (rstrip_fixed _ B).
Qed.

End PyStrFacts.

(** ** Running computations *)

Section Running.

Variable World : Type.
Implicit Types (st : State World) (evs : list Out).

Lemma write_nil st : write st [] = st.
Proof. destruct st; unfold write; simpl. now rewrite app_nil_r. Qed.

Lemma write_write st evs evs' :
  write (write st evs) evs' = write st (evs ++ evs')%list.
Proof. unfold write; simpl. now rewrite app_assoc. Qed.

Lemma emit_run (o : Out) st : emit o st = (Ok tt, write st [o]).
Proof. reflexivity. Qed.

Lemma bind_ok {A B : Type} (m : M World A) (k : A -> M World B) st a st' :
  m st = (Ok a, st') -> bind m k st = k a st'.
Proof. unfold bind. now intros ->. Qed.

Lemma bind_raise {A B : Type} (m : M World A) (k : A -> M World B) st e st' :
  m st = (Raise e, st') -> bind m k st = (Raise e, st').
Proof. unfold bind. now intros ->. Qed.

(** One commit line of the divergence report: the first token and the
    others rejoined, or [IndexError] before anything is written. *)
Lemma printCommit_run (c : string) st :
  printCommit c st =
  match split c with
  | [] => (Raise IndexError, st)
  | _ :: _ => (Ok tt, write st (commit_events c))
  end.
Proof.
  unfold printCommit, commit_events, item, index, slice1.
  destruct (split c) as [|h rest]; [reflexivity|].
  unfold sha, text, nl, bind, ret. cbn [nth_error List.tl].
  rewrite !emit_run, !write_write. reflexivity.
Qed.

(** One commit line of the overview: the bullet comes first. *)
Lemma printOverviewCommit_run (c : string) st :
  printOverviewCommit c st =
  match split c with
  | [] => (Raise IndexError, write st [bullet])
  | _ :: _ => (Ok tt, write st (bullet :: commit_events c))
  end.
Proof.
  unfold printOverviewCommit, commit_events, item, index, slice1, bullet.
  destruct (split c) as [|h rest].
  - unfold text, bind. rewrite emit_run. reflexivity.
  - unfold sha, text, nl, bind, ret. cbn [nth_error List.tl].
    rewrite !emit_run, !write_write. reflexivity.
Qed.

Lemma has_token_split (c : string) :
  has_token c = match split c with [] => false | _ :: _ => true end.
Proof.
  unfold has_token. destruct (split c) eqn:S.
  - apply PyStrFacts.split_nil_iff in S. now rewrite S.
  - destruct (all_ws c) eqn:W; [|reflexivity].
    apply PyStrFacts.split_nil_iff in W. congruence.
Qed.

(** The commit loop of the divergence report stops at the first line
    without a token. *)
Lemma commits_loop_run (lines : list string) st :
  for_ lines (printCommit (World := World)) st =
  (loop_outcome lines, write st (commits_events lines)).
Proof.
  unfold loop_outcome, commits_events. revert st.
  induction lines as [|c lines IH]; intros st; cbn [for_ forallb take_while].
  - simpl. now rewrite write_nil.
  - unfold bind. rewrite printCommit_run, has_token_split.
    destruct (split c) as [|h rest] eqn:S.
    + simpl. now rewrite write_nil.
    + rewrite IH, write_write. cbn [andb flat_map]. reflexivity.
Qed.

(** The commit loop of the overview does the same, one bullet later. *)
Lemma overview_commits_loop_run (lines : list string) st :
  for_ lines (printOverviewCommit (World := World)) st =
  (loop_outcome lines, write st (overview_commits_events lines)).
Proof.
  unfold loop_outcome. revert st.
  induction lines as [|c lines IH]; intros st;
    cbn [for_ forallb overview_commits_events].
  - now rewrite write_nil.
  - unfold bind. rewrite printOverviewCommit_run, has_token_split.
    destruct (split c) as [|h rest] eqn:S.
    + reflexivity.
    + rewrite IH, write_write. cbn [andb]. reflexivity.
Qed.

End Running.

(** ** The divergence analyzer *)

Section Divergence.

Variable World : Type.
Variable git : World -> addr -> list string -> GitResult * World.
Variable heap : addr -> Project.t.
Implicit Types (st : State World) (p : addr).

Lemma GitCommand_run p (args : list string) st :
  GitCommand git p args st =
  (Ok (fst (git (world st) p args)),
   mkState (snd (git (world st) p args))
           (issued st ++ [(p, args, fst (git (world st) p args))])%list
           (output st)).
Proof. unfold GitCommand. destruct (git (world st) p args). reflexivity. Qed.

(** The analysis spelled out: four commands, each run in the world the
    one before left behind. *)
Lemma analyzeDivergence_run p st :
  let a1 := git (world st) p ["fetch"; "--all"] in
  let a2 := git (snd a1) p ["branch"; "-r"] in
  let target :=
    if isOnBranch (splitlines (stdout (fst a2)))
    then "origin/" ++ Project.revisionExpr (heap p)
    else Project.revisionExpr (heap p) in
  let a3 := git (snd a2) p (local_query target) in
  let a4 := git (snd a3) p (remote_query target) in
  analyzeDivergence git heap p st =
  (Ok (mkDivergence target (splitlines (stdout (fst a3)))
                    (splitlines (stdout (fst a4)))),
   mkState (snd a4)
           (issued st ++
            [(p, ["fetch"; "--all"], fst a1); (p, ["branch"; "-r"], fst a2);
             (p, local_query target, fst a3);
             (p, remote_query target, fst a4)])%list
           (output st)).
Proof.
  cbv zeta. unfold analyzeDivergence, bind, ret.
  rewrite !GitCommand_run. cbn [world issued output].
  rewrite !PyStrFacts.append_each_id, <- !app_assoc. reflexivity.
Qed.

(** The report spelled out. *)
Lemma printDivergence_run (d : DivergenceResult) st :
  printDivergence d st =
  (divergence_outcome (localCommits d) (originCommits d),
   write st (divergence_events (localCommits d) (originCommits d))).
Proof.
  unfold printDivergence, divergence_outcome, divergence_events,
    local_heading, remote_heading, heading, redtext, dimtext, text, nl.
  unfold bind at 1 2 3 4. rewrite !emit_run, !write_write.
  unfold bind at 1. rewrite commits_loop_run, write_write.
  unfold loop_outcome at 1.
  destruct (forallb has_token (localCommits d)).
  - unfold bind at 1 2 3 4 5. rewrite !emit_run, !write_write.
    rewrite commits_loop_run, write_write.
    cbn [app]. rewrite <- !app_assoc. reflexivity.
  - cbn [app]. rewrite app_nil_r. reflexivity.
Qed.

Lemma findRemoteLocalDiff_run p st (d : DivergenceResult) st1 :
  analyzeDivergence git heap p st = (Ok d, st1) ->
  findRemoteLocalDiff git heap p st =
  (divergence_outcome (localCommits d) (originCommits d),
   write st1 (divergence_events (localCommits d) (originCommits d))).
Proof.
  intros A. unfold findRemoteLocalDiff.
  erewrite bind_ok by exact A. apply printDivergence_run.
Qed.

End Divergence.

Section DivergenceProperties.

Variable World : Type.
Variable git : World -> addr -> list string -> GitResult * World.
Variable heap : addr -> Project.t.
Implicit Types (st : State World) (p : addr).

(** C1. The comparison target of both range queries is "origin/" followed
    by the project's revision expression when some line of the
    remote-branch listing contains "->", and the bare revision expression
    when none does; the analysis runs fetch, the remote listing, then the
    queries "T.." and "..T" against that target T. *)
Theorem C1_comparison_target p st :
  let fetched := snd (git (world st) p ["fetch"; "--all"]) in
  let listing := splitlines (stdout (fst (git fetched p ["branch"; "-r"]))) in
  let rev := Project.revisionExpr (heap p) in
  let arrow := exists line pre post,
                 In line listing /\ line = pre ++ "->" ++ post in
  exists T,
    ((arrow /\ T = "origin/" ++ rev) \/ (~ arrow /\ T = rev)) /\
    commands (issued (snd (findRemoteLocalDiff git heap p st))) =
    (commands (issued st) ++
     [(p, ["fetch"; "--all"]); (p, ["branch"; "-r"]);
      (p, ["log"; "--pretty=oneline"; (T ++ "..")%string]);
      (p, ["log"; "--pretty=oneline"; (".." ++ T)%string])])%list /\
    exists d st',
      analyzeDivergence git heap p st = (Ok d, st') /\ logTarget d = T.
Proof.
  intros fetched listing rev arrow.
  pose proof (analyzeDivergence_run git heap p st) as A. cbv zeta in A.
  rewrite (findRemoteLocalDiff_run _ _ _ _ A).
  fold fetched in A |- *. fold listing in A |- *. fold rev in A |- *.
  exists (if isOnBranch listing then "origin/" ++ rev else rev).
  split; [|split].
  - destruct (isOnBranch listing) eqn:E.
    + left. split; [|reflexivity]. now apply PyStrFacts.isOnBranch_spec.
    + right. split; [|reflexivity]. intros H.
      apply PyStrFacts.isOnBranch_spec in H. congruence.
  - cbn [snd write issued]. unfold commands. rewrite map_app. reflexivity.
  - do 2 eexists. split; [exact A | reflexivity].
Qed.

(** C2. For the comparison target T, localOnly is the lines of the answer
    to the range query "T.." and remoteOnly the lines of the answer to
    "..T"; when git prints the commits [locals] and [remotes] one per
    line, these are the two sequences, in the order printed. *)
Theorem C2_range_queries p st (locals remotes : list string) :
  let a1 := git (world st) p ["fetch"; "--all"] in
  let a2 := git (snd a1) p ["branch"; "-r"] in
  let target :=
    if isOnBranch (splitlines (stdout (fst a2)))
    then "origin/" ++ Project.revisionExpr (heap p)
    else Project.revisionExpr (heap p) in
  let a3 := git (snd a2) p ["log"; "--pretty=oneline"; target ++ ".."] in
  let a4 := git (snd a3) p ["log"; "--pretty=oneline"; ".." ++ target] in
  Forall (fun l => no_eol l = true) locals ->
  Forall (fun l => no_eol l = true) remotes ->
  stdout (fst a3) = unlines locals ->
  stdout (fst a4) = unlines remotes ->
  exists d st',
    analyzeDivergence git heap p st = (Ok d, st') /\
    logTarget d = target /\
    localCommits d = splitlines (stdout (fst a3)) /\
    originCommits d = splitlines (stdout (fst a4)) /\
    localCommits d = locals /\
    originCommits d = remotes /\
    findRemoteLocalDiff git heap p st =
      (divergence_outcome locals remotes,
       write st' (divergence_events locals remotes)).
Proof.
  intros a1 a2 target a3 a4 Hl Hr E3 E4.
  pose proof (analyzeDivergence_run git heap p st) as A. cbv zeta in A.
  rewrite (findRemoteLocalDiff_run _ _ _ _ A), A.
  do 2 eexists. split; [reflexivity|].
  cbn [logTarget localCommits originCommits].
  fold a1. fold a2. fold target.
  change (git (snd a2) p (local_query target)) with a3.
  change (git (snd a3) p (remote_query target)) with a4.
  rewrite E3, E4, !PyStrFacts.splitlines_unlines by assumption.
  repeat split.
Qed.

Lemma with_fetch_result_fetch (failed : GitResult) (w : World) p :
  with_fetch_result failed git w p ["fetch"; "--all"] =
  (failed, snd (git w p ["fetch"; "--all"])).
Proof.
  unfold with_fetch_result. now destruct (git w p ["fetch"; "--all"]).
Qed.

Lemma with_fetch_result_remote (failed : GitResult) (w : World) p :
  with_fetch_result failed git w p ["branch"; "-r"] =
  git w p ["branch"; "-r"].
Proof.
  unfold with_fetch_result. now destruct (git w p ["branch"; "-r"]).
Qed.

Lemma with_fetch_result_log (failed : GitResult) (w : World) p (r : string) :
  with_fetch_result failed git w p ["log"; "--pretty=oneline"; r] =
  git w p ["log"; "--pretty=oneline"; r].
Proof.
  unfold with_fetch_result.
  now destruct (git w p ["log"; "--pretty=oneline"; r]).
Qed.

(** C3. However the fetch ends, the analysis goes on: the remote listing
    and both range queries are issued after it and their lines reported;
    nothing is raised by the analysis, and what the report writes and how
    it ends are those of a run whose fetch ended the way [git] says. *)
Theorem C3_fetch_failure_not_fatal p st (failed : GitResult) :
  let git' := with_fetch_result failed git in
  exists d st1,
    analyzeDivergence git' heap p st = (Ok d, st1) /\
    (exists r2 r3 r4,
        issued st1 =
        (issued st ++
         [(p, ["fetch"; "--all"], failed); (p, ["branch"; "-r"], r2);
          (p, local_query (logTarget d), r3);
          (p, remote_query (logTarget d), r4)])%list /\
        localCommits d = splitlines (stdout r3) /\
        originCommits d = splitlines (stdout r4)) /\
    findRemoteLocalDiff git' heap p st =
    (divergence_outcome (localCommits d) (originCommits d),
     write st1 (divergence_events (localCommits d) (originCommits d))) /\
    fst (analyzeDivergence git heap p st) = Ok d /\
    fst (findRemoteLocalDiff git' heap p st) =
      fst (findRemoteLocalDiff git heap p st) /\
    output (snd (findRemoteLocalDiff git' heap p st)) =
      output (snd (findRemoteLocalDiff git heap p st)) /\
    world (snd (findRemoteLocalDiff git' heap p st)) =
      world (snd (findRemoteLocalDiff git heap p st)).
Proof.
  intros git'.
  pose proof (analyzeDivergence_run git heap p st) as A.
  pose proof (analyzeDivergence_run git' heap p st) as A'.
  cbv zeta in A, A'. unfold git', local_query, remote_query in A, A'.
  rewrite with_fetch_result_fetch in A'. cbn [fst snd] in A'.
  rewrite with_fetch_result_remote, !with_fetch_result_log in A'.
  fold git' in A'.
  rewrite (findRemoteLocalDiff_run _ _ _ _ A).
  rewrite (findRemoteLocalDiff_run _ _ _ _ A').
  rewrite A, A'. do 2 eexists. split; [reflexivity|].
  cbn [logTarget localCommits originCommits issued fst snd world output write].
  split; [do 3 eexists; repeat split; reflexivity|].
  repeat split; reflexivity.
Qed.

End DivergenceProperties.

(** ** Commit lines *)

Section CommitLines.

Variable World : Type.
Implicit Types (st : State World) (lines : list string).

Lemma forallb_has_token lines :
  Forall (fun c => has_token c = true) lines -> forallb has_token lines = true.
Proof. intros H. apply forallb_forall. now apply Forall_forall. Qed.

Lemma loop_outcome_good lines :
  Forall (fun c => has_token c = true) lines -> loop_outcome lines = Ok tt.
Proof. intros H. unfold loop_outcome. now rewrite forallb_has_token. Qed.

Lemma loop_outcome_blank (good rest : list string) (c : string) :
  has_token c = false -> loop_outcome (good ++ c :: rest) = Raise IndexError.
Proof.
  intros H. unfold loop_outcome. rewrite forallb_app. cbn [forallb].
  now rewrite H, andb_false_r.
Qed.

Lemma take_while_good lines :
  Forall (fun c => has_token c = true) lines ->
  take_while has_token lines = lines.
Proof. induction 1 as [|c l H _ IH]; simpl; [|rewrite H, IH]; reflexivity. Qed.

Lemma take_while_blank (good rest : list string) (c : string) :
  Forall (fun c => has_token c = true) good -> has_token c = false ->
  take_while has_token (good ++ c :: rest) = good.
Proof.
  intros G B. induction G as [|x l H _ IH]; simpl.
  - now rewrite B.
  - now rewrite H, IH.
Qed.

Lemma overview_events_good lines :
  Forall (fun c => has_token c = true) lines ->
  overview_commits_events lines =
  flat_map (fun c => bullet :: commit_events c) lines.
Proof.
  induction 1 as [|c l H _ IH]; simpl; [reflexivity|].
  now rewrite H, IH.
Qed.

Lemma overview_events_blank (good rest : list string) (c : string) :
  Forall (fun c => has_token c = true) good -> has_token c = false ->
  overview_commits_events (good ++ c :: rest) =
  (flat_map (fun c => bullet :: commit_events c) good ++ [bullet])%list.
Proof.
  intros G B. induction G as [|x l H _ IH]; simpl.
  - now rewrite B.
  - rewrite H, IH, <- app_assoc. reflexivity.
Qed.

(** C4 (amended). No commit line is skipped. Lines that all hold a token
    are all rendered, in both reports, and the loop ends normally; a line
    that is empty or all whitespace ends the loop with [IndexError], the
    lines before it rendered and nothing after it (in the overview the
    bullet of that line is already written). *)
Theorem C4_blank_line_raises (good rest : list string) (c : string) st :
  Forall (fun l => has_token l = true) good ->
  has_token c = false ->
  for_ good (printCommit (World := World)) st =
    (Ok tt, write st (flat_map commit_events good)) /\
  for_ good (printOverviewCommit (World := World)) st =
    (Ok tt, write st (flat_map (fun l => bullet :: commit_events l) good)) /\
  for_ (good ++ c :: rest) (printCommit (World := World)) st =
    (Raise IndexError, write st (flat_map commit_events good)) /\
  for_ (good ++ c :: rest) (printOverviewCommit (World := World)) st =
    (Raise IndexError,
     write st (flat_map (fun l => bullet :: commit_events l) good
               ++ [bullet])%list).
Proof.
  intros G B. rewrite !commits_loop_run, !overview_commits_loop_run.
  unfold commits_events.
  rewrite (@loop_outcome_good good G), (@loop_outcome_blank good rest c B).
  rewrite (@take_while_good good G), (@take_while_blank good rest c G B).
  rewrite (@overview_events_good good G).
  rewrite (@overview_events_blank good rest c G B).
  repeat split.
Qed.

(** A line holding nothing but its hash is rendered with an empty
    subject. *)
Lemma commit_events_token (h : string) :
  is_token h = true ->
  commit_events h = [Print Sha (h ++ " "); Print Text ""; Nl].
Proof.
  intros H. unfold commit_events. now rewrite (@PyStrFacts.split_token h H).
Qed.

Lemma commit_events_subject (h subj : string) :
  is_token h = true ->
  commit_events (h ++ " " ++ subj) =
  [Print Sha (h ++ " "); Print Text (rejoin subj); Nl].
Proof.
  intros H. unfold commit_events, rejoin.
  change (h ++ " " ++ subj) with (h ++ String " " subj).
  now rewrite (@PyStrFacts.split_token_app h " " subj H eq_refl).
Qed.

(** C10 (amended). For a line made of a hash, one space and a subject,
    both reports print after the hash the tokens of the subject rejoined
    with single spaces. A subject holding two whitespace characters in a
    row is printed changed, and a subject is printed unchanged exactly
    when its only whitespace is single spaces and it neither starts nor
    ends with one. *)
Theorem C10_subject_rejoined (h subj : string) st :
  is_token h = true ->
  printCommit (h ++ " " ++ subj) st =
    (Ok tt, write st [Print Sha (h ++ " "); Print Text (rejoin subj); Nl]) /\
  printOverviewCommit (h ++ " " ++ subj) st =
    (Ok tt, write st [bullet; Print Sha (h ++ " ");
                      Print Text (rejoin subj); Nl]) /\
  rejoin subj = join " " (slice1 (split (h ++ " " ++ subj))) /\
  (ws_run subj = true -> rejoin subj <> subj) /\
  (rejoin subj = subj <->
   only_single_spaces subj = true /\ trimmed subj = true).
Proof.
  intros H.
  assert (S : split (h ++ " " ++ subj) = h :: split subj)
    by exact (@PyStrFacts.split_token_app h " " subj H eq_refl).
  rewrite printCommit_run, printOverviewCommit_run, S.
  rewrite (@commit_events_subject h subj H).
  split; [reflexivity|]. split; [reflexivity|]. split; [reflexivity|].
  split.
  - apply PyStrFacts.rejoin_collapses.
  - apply PyStrFacts.rejoin_fixed_iff.
Qed.

End CommitLines.

(** C4, as first stated, fails: the log of checkout 3 has an empty second
    line; the divergence report raises [IndexError] there, with the first
    commit written and neither the third commit nor the remote part, and
    the overview raises as well. *)
Lemma C4_counterexample :
  findRemoteLocalDiff Demo.blank_git Demo.heap 3 Demo.blank_start =
    (Raise IndexError,
     mkState tt
       [(3, ["fetch"; "--all"], mkGitResult 0 "" "");
        (3, ["branch"; "-r"], mkGitResult 0 "" "");
        (3, ["log"; "--pretty=oneline"; "stable.."],
         mkGitResult 0 (unlines ["abc first"; ""; "def second"]) "");
        (3, ["log"; "--pretty=oneline"; "..stable"], mkGitResult 0 "" "")]
       [Print Heading "Local Commits: "; Print Redtext "3";
        Print Dimtext " (on current branch)"; Nl;
        Print Sha "abc "; Print Text "first"; Nl]) /\
  fst (printOverview Demo.heap Demo.GetProjects
         (Options.mk false true false) ["tools"] Demo.blank_start)
    = Raise IndexError /\
  for_ ["abc first"; ""; "def second"] (printCommit (World := unit))
       Demo.blank_start
    <> (Ok tt,
        write Demo.blank_start
          (flat_map commit_events
             (filter has_token ["abc first"; ""; "def second"]))).
Proof.
  split; [reflexivity|]. split; [reflexivity|].
  rewrite commits_loop_run. discriminate.
Qed.

(** C4 (amended) on two good lines followed by a line of two spaces. *)
Lemma C4_witness :
  for_ ["abc first"; "def"] (printCommit (World := unit)) Demo.blank_start =
    (Ok tt, write Demo.blank_start
              (flat_map commit_events ["abc first"; "def"])) /\
  for_ ["abc first"; "def"] (printOverviewCommit (World := unit))
       Demo.blank_start =
    (Ok tt, write Demo.blank_start
              (flat_map (fun l => bullet :: commit_events l)
                        ["abc first"; "def"])) /\
  for_ (["abc first"; "def"] ++ "  " :: ["123 later"])%list
       (printCommit (World := unit)) Demo.blank_start =
    (Raise IndexError,
     write Demo.blank_start (flat_map commit_events ["abc first"; "def"])) /\
  for_ (["abc first"; "def"] ++ "  " :: ["123 later"])%list
       (printOverviewCommit (World := unit)) Demo.blank_start =
    (Raise IndexError,
     write Demo.blank_start
       (flat_map (fun l => bullet :: commit_events l) ["abc first"; "def"]
        ++ [bullet])%list).
Proof.
  apply (@C4_blank_line_raises unit ["abc first"; "def"] ["123 later"] "  "
           Demo.blank_start).
  - repeat constructor.
  - reflexivity.
Defined.

(** C10, as first stated, fails: the subject " fix" holds a single space
    and no run of whitespace, and is printed as "fix". *)
Lemma C10_counterexample :
  only_single_spaces " fix" = true /\
  ws_run " fix" = false /\
  printCommit ("1a2b3c" ++ " " ++ " fix") Demo.blank_start =
    (Ok tt, write Demo.blank_start
              [Print Sha "1a2b3c "; Print Text "fix"; Nl]) /\
  "fix" <> " fix".
Proof. repeat split; try reflexivity. discriminate. Qed.

(** C10 (amended) on the first commit of the "topic" branch. *)
Lemma C10_witness :
  printCommit ("1a2b3c" ++ " " ++ "add  the parser") Demo.blank_start =
    (Ok tt, write Demo.blank_start
              [Print Sha ("1a2b3c" ++ " ");
               Print Text (rejoin "add  the parser"); Nl]) /\
  printOverviewCommit ("1a2b3c" ++ " " ++ "add  the parser") Demo.blank_start =
    (Ok tt, write Demo.blank_start
              [bullet; Print Sha ("1a2b3c" ++ " ");
               Print Text (rejoin "add  the parser"); Nl]) /\
  rejoin "add  the parser" =
    join " " (slice1 (split ("1a2b3c" ++ " " ++ "add  the parser"))) /\
  (ws_run "add  the parser" = true ->
   rejoin "add  the parser" <> "add  the parser") /\
  (rejoin "add  the parser" = "add  the parser" <->
   only_single_spaces "add  the parser" = true /\
   trimmed "add  the parser" = true).
Proof.
  apply (@C10_subject_rejoined unit "1a2b3c" "add  the parser" Demo.blank_start).
  reflexivity.
Defined.

(** ** The local-branch lister *)

Section LocalBranches.

Variable World : Type.
Variable git : World -> addr -> list string -> GitResult * World.
Implicit Types (st : State World) (p : addr).

Lemma branch_name_spec (line : string) :
  has_char "*" (branch_name line) = false /\
  trimmed (branch_name line) = true /\
  exists pre post,
    all_ws pre = true /\ all_ws post = true /\
    replace "*" "" line = pre ++ branch_name line ++ post.
Proof.
  unfold branch_name. split; [|split].
  - apply PyStrFacts.strip_has_char, PyStrFacts.replace_removes.
  - apply PyStrFacts.strip_spec.
  - apply PyStrFacts.strip_spec.
Qed.





End LocalBranches.

(** [git branch] listing "wip" twice yields "wip" twice. *)
Example localBranches_duplicates :
  fst (localBranches Demo.git 1 Demo.start) = Ok ["master"; "wip"; "wip"].
Proof. reflexivity. Qed.

(** ** The overview aggregator *)

Section Overview.

Variable World : Type.
Variable heap : addr -> Project.t.
Variable GetProjects : list string -> Result (list addr).
Implicit Types (st : State World) (p : addr) (opt : Options.t)
  (x : ReviewableBranch.t) (projs : list addr).

Lemma truthy_In {A : Type} (l : list (option A)) (a : A) :
  In a (truthy l) <-> In (Some a) l.
Proof.
  induction l as [|[b|] l IH]; simpl; [tauto| |].
  - rewrite IH. split; intros [H|H]; auto; left; congruence.
  - rewrite IH. split; [auto | intros [H|H]; [discriminate | exact H]].
Qed.

Lemma projectBranches_keep opt p :
  projectBranches heap opt p =
  filter (keep heap opt p)
    (truthy (map (Project.GetUploadableBranch (heap p))
                 (Project.GetBranches_keys (heap p)))).
Proof.
  unfold projectBranches, keep. destruct (Options.current_branch opt).
  - reflexivity.
  - symmetry. apply forallb_filter_id. now apply forallb_forall.
Qed.

(** [all] grows project by project, in the order of the projects. *)
Lemma collectBranches_flat_map opt projs :
  collectBranches heap opt projs = flat_map (projectBranches heap opt) projs.
Proof.
  unfold collectBranches.
  enough (G : forall acc,
             fold_left (fun all project =>
                          (all ++ projectBranches heap opt project)%list)
                       projs acc
             = (acc ++ flat_map (projectBranches heap opt) projs)%list)
    by apply (G []).
  induction projs as [|p ps IH]; intros acc; simpl.
  - now rewrite app_nil_r.
  - rewrite IH, app_assoc. reflexivity.
Qed.

Lemma is_current_spec p x :
  is_current heap p x = true <->
  Project.CurrentBranch (heap p) = Some (ReviewableBranch.name x).
Proof.
  unfold is_current. destruct (Project.CurrentBranch (heap p)) as [b|].
  - rewrite String.eqb_eq. split; congruence.
  - split; discriminate.
Qed.

Lemma projectBranches_In opt p x :
  In x (projectBranches heap opt p) <->
  (exists k, In k (Project.GetBranches_keys (heap p)) /\
             Project.GetUploadableBranch (heap p) k = Some x) /\
  keep heap opt p x = true.
Proof.
  rewrite projectBranches_keep, filter_In, truthy_In, in_map_iff.
  split; intros [[k [A B]] C]; (split; [exists k; tauto | exact C]).
Qed.

Lemma collectBranches_In opt projs x :
  In x (collectBranches heap opt projs) <->
  exists p k,
    In p projs /\ In k (Project.GetBranches_keys (heap p)) /\
    Project.GetUploadableBranch (heap p) k = Some x /\
    keep heap opt p x = true.
Proof.
  rewrite collectBranches_flat_map, in_flat_map. split.
  - intros [p [Hp Hx]]. apply projectBranches_In in Hx.
    destruct Hx as [[k [A B]] C]. exists p, k. tauto.
  - intros [p [k (A & B & C & D)]]. exists p. split; [exact A|].
    apply projectBranches_In. split; [exists k; tauto | exact D].
Qed.

(** C6. With [-b] the overview holds exactly the uploadable branches
    whose name is the current branch of the project that owns them;
    without [-b] it holds every branch for which the uploadable-branch
    test of a project gave a result. *)
Theorem C6_overview_filter (all_ overview_ : bool) projs x :
  owned heap ->
  (In x (collectBranches heap (Options.mk all_ overview_ true) projs) <->
   In (ReviewableBranch.project x) projs /\
   (exists k,
       In k (Project.GetBranches_keys (heap (ReviewableBranch.project x))) /\
       Project.GetUploadableBranch (heap (ReviewableBranch.project x)) k
       = Some x) /\
   Project.CurrentBranch (heap (ReviewableBranch.project x))
   = Some (ReviewableBranch.name x))
  /\
  (In x (collectBranches heap (Options.mk all_ overview_ false) projs) <->
   exists p k,
     In p projs /\ In k (Project.GetBranches_keys (heap p)) /\
     Project.GetUploadableBranch (heap p) k = Some x).
Proof.
  intros Own. rewrite !collectBranches_In. unfold keep. cbn [Options.current_branch].
  split; split.
  - intros [p [k (A & B & C & D)]]. pose proof (Own _ _ _ C) as E.
    rewrite E. apply is_current_spec in D. split; [exact A|].
    split; [exists k; tauto | exact D].
  - intros (A & [k [B C]] & D).
    exists (ReviewableBranch.project x), k.
    repeat split; auto. now apply is_current_spec.
  - intros [p [k (A & B & C & _)]]. exists p, k. tauto.
  - intros [p [k (A & B & C)]]. exists p, k. tauto.
Qed.

(** One turn of the overview loop. *)
Lemma printBranch_run (prev : option addr) x st :
  printBranch heap prev x st =
  ((if forallb has_token (ReviewableBranch.commits x)
    then Ok (Some (ReviewableBranch.project x))
    else Raise IndexError),
   write st (branch_events heap prev x)).
Proof.
  unfold printBranch, branch_events.
  set (owner := ReviewableBranch.project x).
  assert (H : forall (here : list Out) st1,
             bind (text (World := World) (branchLine heap owner x))
               (fun _ => bind (@nl World) (fun _ =>
                  bind (for_ (ReviewableBranch.commits x)
                             (printOverviewCommit (World := World)))
                       (fun _ => ret (Some owner))))
               (write st1 here)
             = ((if forallb has_token (ReviewableBranch.commits x)
                 then Ok (Some owner) else Raise IndexError),
                write st1 (here ++ Print Text (branchLine heap owner x) :: Nl ::
                           overview_commits_events
                             (ReviewableBranch.commits x))%list)).
  { intros here st1. unfold text, nl. unfold bind at 1 2.
    rewrite !emit_run, !write_write. unfold bind.
    rewrite overview_commits_loop_run, write_write. unfold loop_outcome.
    rewrite <- !app_assoc. cbn [app].
    destruct (forallb has_token (ReviewableBranch.commits x)); reflexivity. }
  destruct prev as [q|].
  - destruct (q =? owner)%nat eqn:E; cbn [negb].
    + apply Nat.eqb_eq in E. subst q. unfold bind at 1, ret at 1.
      rewrite <- (write_nil st) at 1. apply H.
    + unfold headtext, nl. unfold bind at 1 2 3 4, ret at 1.
      rewrite !emit_run, !write_write. apply H.
  - unfold headtext, nl. unfold bind at 1 2 3 4, ret at 1.
    rewrite !emit_run, !write_write. apply H.
Qed.

(** The overview loop. *)
Lemma overview_loop_run (all : list ReviewableBranch.t) (prev : option addr) st :
  for_with all prev (printBranch (World := World) heap) st =
  (overview_result prev all, write st (overview_events heap prev all)).
Proof.
  revert prev st. induction all as [|x rest IH]; intros prev st;
    cbn [for_with overview_result overview_events].
  - unfold ret. now rewrite write_nil.
  - unfold bind. rewrite printBranch_run.
    destruct (forallb has_token (ReviewableBranch.commits x)).
    + rewrite IH, write_write. reflexivity.
    + now rewrite app_nil_r.
Qed.

Lemma renderOverview_run (all : list ReviewableBranch.t) st :
  renderOverview heap all st =
  match all with
  | [] => (Ok tt, st)
  | _ :: _ =>
      (match overview_result None all with
       | Ok _ => Ok tt
       | Raise e => Raise e
       end,
       write st (Nl :: Print Heading "Projects Overview" ::
                 overview_events heap None all))
  end.
Proof.
  destruct all as [|x rest]; [reflexivity|].
  unfold renderOverview, nl, heading. unfold bind at 1 2.
  rewrite !emit_run, !write_write. unfold bind.
  rewrite overview_loop_run, write_write. cbn [app].
  destruct (overview_result None (x :: rest)); reflexivity.
Qed.

(** C7. When the list of projects is empty, or no project contributes a
    branch, [printOverview] returns normally and has written nothing:
    no heading, no project header. *)
Theorem C7_nothing_to_report opt (args : list string) projs st :
  GetProjects args = Ok projs ->
  Forall (fun p => projectBranches heap opt p = []) projs ->
  collectBranches heap opt projs = [] /\
  printOverview heap GetProjects opt args st = (Ok tt, st).
Proof.
  intros G E.
  assert (C : collectBranches heap opt projs = []).
  { rewrite collectBranches_flat_map. clear G.
    induction E as [|p ps Hp _ IH]; cbn [flat_map]; [reflexivity|].
    now rewrite Hp, IH. }
  split; [exact C|]. unfold printOverview. now rewrite G, C.
Qed.

Lemma printOverview_unresolved opt (args : list string) (e : exn) st :
  GetProjects args = Raise e ->
  printOverview heap GetProjects opt args st = (Raise e, st).
Proof. intros G. unfold printOverview. now rewrite G. Qed.

(** *** Project headers *)

Lemma headers_app (a b : list Out) :
  headers (a ++ b) = (headers a ++ headers b)%list.
Proof.
  induction a as [|[[] s|] a IH]; simpl; auto. now rewrite IH.
Qed.

Lemma headers_commit_events (c : string) : headers (commit_events c) = [].
Proof. unfold commit_events. destruct (split c); reflexivity. Qed.

Lemma headers_overview_commits (lines : list string) :
  headers (overview_commits_events lines) = [].
Proof.
  induction lines as [|c lines IH]; simpl; [reflexivity|].
  destruct (has_token c); [|reflexivity].
  cbn [headers bullet]. now rewrite headers_app, headers_commit_events, IH.
Qed.

Lemma headers_branch_events (prev : option addr) x :
  headers (branch_events heap prev x) = boundaries heap prev [x].
Proof.
  unfold branch_events. rewrite headers_app. cbn [headers boundaries].
  rewrite headers_overview_commits, !app_nil_r.
  destruct prev as [q|]; [destruct (q =? _)%nat|]; reflexivity.
Qed.

Lemma boundaries_cons (prev : option addr) x (rest : list ReviewableBranch.t) :
  boundaries heap prev (x :: rest) =
  (boundaries heap prev [x] ++
   boundaries heap (Some (ReviewableBranch.project x)) rest)%list.
Proof. cbn [boundaries]. now rewrite app_nil_r. Qed.

(** The headers written are the first of the headers called for, and all
    of them when the loop comes to its end. *)
Lemma headers_overview_events (all : list ReviewableBranch.t) (prev : option addr) :
  (exists rest,
      boundaries heap prev all =
      (headers (overview_events heap prev all) ++ rest)%list) /\
  (forall last, overview_result prev all = Ok last ->
                headers (overview_events heap prev all) =
                boundaries heap prev all).
Proof.
  revert prev. induction all as [|x rest IH]; intros prev.
  - split; [exists []; reflexivity | reflexivity].
  - rewrite boundaries_cons. cbn [overview_events overview_result].
    rewrite headers_app, headers_branch_events.
    destruct (forallb has_token (ReviewableBranch.commits x)).
    + destruct (IH (Some (ReviewableBranch.project x))) as [[more E] F].
      split.
      * exists more. rewrite E at 1. now rewrite app_assoc.
      * intros last H. now rewrite (F last H).
    + split; [|discriminate].
      exists (boundaries heap (Some (ReviewableBranch.project x)) rest).
      cbn [headers]. now rewrite app_nil_r.
Qed.

Lemma boundaries_same_owner p (block rest : list ReviewableBranch.t) :
  Forall (fun x => ReviewableBranch.project x = p) block ->
  boundaries heap (Some p) (block ++ rest) = boundaries heap (Some p) rest.
Proof.
  induction 1 as [|x block Hx _ IH]; [reflexivity|].
  rewrite <- app_comm_cons.
  cbn [boundaries]. rewrite Hx, Nat.eqb_refl. exact IH.
Qed.

Lemma projectBranches_owner opt p :
  owned heap ->
  Forall (fun x => ReviewableBranch.project x = p) (projectBranches heap opt p).
Proof.
  intros Own. apply Forall_forall. intros x Hx.
  apply projectBranches_In in Hx. destruct Hx as [[k [_ E]] _].
  exact (Own _ _ _ E).
Qed.

(** One header for each contributing project, in the order of the
    projects. *)
Lemma boundaries_blocks opt projs (prev : option addr) :
  owned heap -> NoDup projs ->
  (forall q, prev = Some q -> ~ In q projs) ->
  boundaries heap prev (flat_map (projectBranches heap opt) projs) =
  map (fun p => Project.relpath (heap p)) (contributing heap opt projs).
Proof.
  intros Own ND. revert prev.
  induction ND as [|p ps Hp ND IH]; intros prev Hprev; [reflexivity|].
  cbn [flat_map contributing filter].
  pose proof (projectBranches_owner opt p Own) as B.
  destruct (projectBranches heap opt p) as [|x block] eqn:E.
  - cbn [app]. apply IH. intros q Hq Hin. apply (Hprev q Hq). now right.
  - inversion B as [|? ? Hx Hblock]; subst.
    rewrite <- app_comm_cons. cbn [boundaries map].
    set (own := ReviewableBranch.project x) in *.
    rewrite (boundaries_same_owner _ Hblock).
    fold (contributing heap opt ps).
    rewrite (IH (Some own)) by (intros q Hq; inversion Hq; subst; exact Hp).
    destruct prev as [q|]; [|reflexivity].
    destruct (q =? own)%nat eqn:Q; [|reflexivity].
    apply Nat.eqb_eq in Q. exfalso. apply (Hprev q eq_refl). now left.
Qed.

Lemma flat_map_owner_In opt projs x :
  owned heap ->
  In x (flat_map (projectBranches heap opt) projs) ->
  In (ReviewableBranch.project x) projs.
Proof.
  intros Own H. apply in_flat_map in H. destruct H as [p [Hp Hx]].
  pose proof (projectBranches_owner opt p Own) as B.
  rewrite Forall_forall in B. now rewrite (B x Hx).
Qed.

(** The branches of one project sit next to each other. *)
Lemma blocks_contiguous opt projs :
  owned heap -> NoDup projs ->
  forall i j k x z,
    i <= j -> j <= k ->
    nth_error (flat_map (projectBranches heap opt) projs) i = Some x ->
    nth_error (flat_map (projectBranches heap opt) projs) k = Some z ->
    ReviewableBranch.project x = ReviewableBranch.project z ->
    exists y,
      nth_error (flat_map (projectBranches heap opt) projs) j = Some y /\
      ReviewableBranch.project y = ReviewableBranch.project x.
Proof.
  intros Own ND. induction ND as [|p ps Hp ND IH]; intros i j k x z Hij Hjk Hi Hk E.
  - destruct i; discriminate.
  - cbn [flat_map] in *.
    pose proof (projectBranches_owner opt p Own) as B.
    rewrite Forall_forall in B.
    set (block := projectBranches heap opt p) in *.
    destruct (Nat.lt_ge_cases k (List.length block)) as [Hlt|Hge].
    + (* all three inside the block of [p] *)
      rewrite nth_error_app1 in Hi by lia.
      rewrite nth_error_app1 by lia.
      destruct (nth_error block j) as [y|] eqn:Hj.
      * exists y. split; [reflexivity|].
        rewrite (B y (nth_error_In _ _ Hj)), (B x (nth_error_In _ _ Hi)).
        reflexivity.
      * apply nth_error_None in Hj. lia.
    + rewrite (nth_error_app2 _ _ Hge) in Hk.
      destruct (Nat.lt_ge_cases i (List.length block)) as [Hi1|Hi2].
      * (* [x] in the block of [p], [z] further on: [p] would come twice *)
        rewrite nth_error_app1 in Hi by lia.
        exfalso. apply Hp.
        rewrite <- (B x (nth_error_In _ _ Hi)), E.
        apply (flat_map_owner_In opt ps z Own), (nth_error_In _ _ Hk).
      * rewrite (nth_error_app2 _ _ Hi2) in Hi.
        rewrite nth_error_app2 by lia.
        apply (IH (i - List.length block) (j - List.length block)
                  (k - List.length block) x z); auto; lia.
Qed.

(** C8. The overview lists the projects in the order given and, within a
    project, the branches in the order of its branch enumeration, with
    no sorting. The branches of one project sit next to each other, and
    the headers the sequence calls for, one wherever the owner changes,
    are one per contributing project; those are the headers written
    when the report comes to its end, and the first of them are written
    when it does not. *)
Theorem C8_overview_order opt (args : list string) projs st :
  GetProjects args = Ok projs ->
  NoDup projs ->
  owned heap ->
  collectBranches heap opt projs =
    flat_map (fun p =>
                filter (keep heap opt p)
                  (truthy (map (Project.GetUploadableBranch (heap p))
                               (Project.GetBranches_keys (heap p))))) projs /\
  (forall i j k x z,
      i <= j -> j <= k ->
      nth_error (collectBranches heap opt projs) i = Some x ->
      nth_error (collectBranches heap opt projs) k = Some z ->
      ReviewableBranch.project x = ReviewableBranch.project z ->
      exists y,
        nth_error (collectBranches heap opt projs) j = Some y /\
        ReviewableBranch.project y = ReviewableBranch.project x) /\
  boundaries heap None (collectBranches heap opt projs) =
    map (fun p => Project.relpath (heap p)) (contributing heap opt projs) /\
  exists r evs,
    printOverview heap GetProjects opt args st = (r, write st evs) /\
    evs = match collectBranches heap opt projs with
          | [] => []
          | _ :: _ =>
              Nl :: Print Heading "Projects Overview" ::
              overview_events heap None (collectBranches heap opt projs)
          end /\
    (exists rest,
        map (fun p => Project.relpath (heap p)) (contributing heap opt projs)
        = (headers evs ++ rest)%list) /\
    (r = Ok tt ->
     headers evs =
     map (fun p => Project.relpath (heap p)) (contributing heap opt projs)).
Proof.
  intros G ND Own.
  assert (Hb : boundaries heap None (collectBranches heap opt projs) =
               map (fun p => Project.relpath (heap p))
                   (contributing heap opt projs)).
  { rewrite collectBranches_flat_map.
    apply boundaries_blocks; auto. discriminate. }
  split; [|split; [|split; [exact Hb|]]].
  - rewrite collectBranches_flat_map. apply flat_map_ext.
    intros p. apply projectBranches_keep.
  - rewrite collectBranches_flat_map. now apply blocks_contiguous.
  - unfold printOverview. rewrite G, renderOverview_run, <- Hb.
    destruct (collectBranches heap opt projs) as [|x rest] eqn:C.
    + exists (Ok tt), []. rewrite write_nil.
      split; [reflexivity|]. split; [reflexivity|].
      split; [exists []|]; reflexivity.
    + destruct (headers_overview_events (x :: rest) None) as [[more E] F].
      do 2 eexists. split; [reflexivity|]. split; [reflexivity|].
      cbn [headers]. split.
      * exists more. exact E.
      * intros R.
        destruct (overview_result None (x :: rest)) as [last|e] eqn:O;
          [|discriminate].
        exact (F last eq_refl).
Qed.

End Overview.

(** ** The demonstration workspace *)

Lemma demo_owned : owned Demo.heap.
Proof.
  intros a k x. destruct a as [|[|[|[|a]]]]; cbn; try discriminate.
  - destruct (String.eqb k "topic"); [intros H; now inversion H|].
    destruct (String.eqb k "wip"); [intros H; now inversion H | discriminate].
  - destruct (String.eqb k "hack"); [intros H; now inversion H | discriminate].
Qed.

Lemma demo_nodup : NoDup [1; 2; 3].
Proof. repeat constructor; simpl; intuition discriminate. Qed.

(** C2 on checkout 1 of the demonstration workspace. *)
Lemma C2_witness :
  exists d st',
    analyzeDivergence Demo.git Demo.heap 1 Demo.start = (Ok d, st') /\
    logTarget d = "origin/master" /\
    localCommits d =
      splitlines (unlines ["1a2b3c add  the parser"; "4d5e6f fix typo"]) /\
    originCommits d = splitlines (unlines ["9f8e7d upstream change"]) /\
    localCommits d = ["1a2b3c add  the parser"; "4d5e6f fix typo"] /\
    originCommits d = ["9f8e7d upstream change"] /\
    findRemoteLocalDiff Demo.git Demo.heap 1 Demo.start =
      (divergence_outcome ["1a2b3c add  the parser"; "4d5e6f fix typo"]
                          ["9f8e7d upstream change"],
       write st' (divergence_events
                    ["1a2b3c add  the parser"; "4d5e6f fix typo"]
                    ["9f8e7d upstream change"])).
Proof.
  apply (@C2_range_queries bool Demo.git Demo.heap 1 Demo.start
           ["1a2b3c add  the parser"; "4d5e6f fix typo"]
           ["9f8e7d upstream change"]).
  - repeat constructor.
  - repeat constructor.
  - reflexivity.
  - reflexivity.
Defined.

(** C6 for the branch "wip" of checkout 1, its current branch. *)
Lemma C6_witness :
  (In Demo.wip
      (collectBranches Demo.heap (Options.mk false true true) [1; 2; 3]) <->
   In (ReviewableBranch.project Demo.wip) [1; 2; 3] /\
   (exists k,
       In k (Project.GetBranches_keys
               (Demo.heap (ReviewableBranch.project Demo.wip))) /\
       Project.GetUploadableBranch
         (Demo.heap (ReviewableBranch.project Demo.wip)) k = Some Demo.wip) /\
   Project.CurrentBranch (Demo.heap (ReviewableBranch.project Demo.wip))
   = Some (ReviewableBranch.name Demo.wip))
  /\
  (In Demo.wip
      (collectBranches Demo.heap (Options.mk false true false) [1; 2; 3]) <->
   exists p k,
     In p [1; 2; 3] /\ In k (Project.GetBranches_keys (Demo.heap p)) /\
     Project.GetUploadableBranch (Demo.heap p) k = Some Demo.wip).
Proof.
  apply (@C6_overview_filter Demo.heap false true [1; 2; 3] Demo.wip).
  exact demo_owned.
Defined.

(** C7 on checkout 2, which has no uploadable branch. *)
Lemma C7_witness :
  collectBranches Demo.heap (Options.mk false true false) [2] = [] /\
  printOverview Demo.heap Demo.GetProjects (Options.mk false true false)
    ["docs"] Demo.start = (Ok tt, Demo.start).
Proof.
  apply (@C7_nothing_to_report bool Demo.heap Demo.GetProjects
           (Options.mk false true false) ["docs"] [2] Demo.start).
  - reflexivity.
  - repeat constructor.
Defined.

(** C8 on checkouts 1 and 2: two branches of checkout 1 under one header. *)
Lemma C8_witness :
  collectBranches Demo.heap (Options.mk false true false) [1; 2] =
    [Demo.topic; Demo.wip] /\
  (forall i j k x z,
      i <= j -> j <= k ->
      nth_error (collectBranches Demo.heap (Options.mk false true false) [1; 2]) i
      = Some x ->
      nth_error (collectBranches Demo.heap (Options.mk false true false) [1; 2]) k
      = Some z ->
      ReviewableBranch.project x = ReviewableBranch.project z ->
      exists y,
        nth_error (collectBranches Demo.heap (Options.mk false true false) [1; 2]) j
        = Some y /\
        ReviewableBranch.project y = ReviewableBranch.project x) /\
  boundaries Demo.heap None
    (collectBranches Demo.heap (Options.mk false true false) [1; 2]) = ["build"] /\
  exists r evs,
    printOverview Demo.heap Demo.GetProjects (Options.mk false true false)
      ["build"; "docs"] Demo.start = (r, write Demo.start evs) /\
    evs = Nl :: Print Heading "Projects Overview" ::
          overview_events Demo.heap None [Demo.topic; Demo.wip] /\
    (exists rest, ["build"] = (headers evs ++ rest)%list) /\
    (r = Ok tt -> headers evs = ["build"]).
Proof.
  apply (@C8_overview_order bool Demo.heap Demo.GetProjects
           (Options.mk false true false) ["build"; "docs"] [1; 2] Demo.start).
  - reflexivity.
  - repeat constructor; simpl; intuition discriminate.
  - exact demo_owned.
Defined.

(** ** Unresolved project names *)

Section Resolution.

Variable World : Type.
Variable git : World -> addr -> list string -> GitResult * World.
Variable heap : addr -> Project.t.
Variable GetProjects : list string -> Result (list addr).
Variable manifest : Manifest.
Implicit Types (st : State World) (opt : Options.t) (args : list string).

(** The per-project report has a handler for [NoSuchProjectError]. *)
Lemma printLocalInfo_unresolved opt args st :
  GetProjects (if (0 <? List.length args)%nat then args else ["."])
  = Raise NoSuchProjectError ->
  printLocalInfo git heap GetProjects opt args st = (Ok tt, st).
Proof. intros G. unfold printLocalInfo. now rewrite G. Qed.

Lemma Execute_run opt args st :
  Execute git heap GetProjects manifest opt args st =
  (if negb (Options.overview opt)
   then printLocalInfo git heap GetProjects opt args
   else printOverview heap GetProjects opt args)
    (write st [Print Heading "Manifest branch: ";
               Print Headtext (default_revisionExpr manifest); Nl;
               Print Heading "Manifest merge branch: ";
               Print Headtext (mergeBranch manifest); Nl]).
Proof.
  unfold Execute, heading, headtext, nl. unfold bind at 1 2 3 4 5 6.
  rewrite !emit_run, !write_write. reflexivity.
Qed.

(** The overview has none: the exception leaves [printOverview] and
    [Execute]. *)
Lemma Execute_overview_unresolved opt args (e : exn) st :
  Options.overview opt = true ->
  GetProjects args = Raise e ->
  fst (Execute git heap GetProjects manifest opt args st) = Raise e.
Proof.
  intros O G. rewrite Execute_run, O. cbn [negb].
  now rewrite (@printOverview_unresolved World heap GetProjects opt args e _ G).
Qed.

End Resolution.

(** The overview of checkouts 1 and 2 with [-b]: one header, the current
    branch alone, its single commit. *)
Example overview_current_branch :
  printOverview Demo.heap Demo.GetProjects (Options.mk false true true)
    ["build"; "docs"] Demo.start =
  (Ok tt,
   write Demo.start
     [Nl; Print Heading "Projects Overview";
      Nl; Print Headtext "build"; Nl;
      Print Text "* wip                               ( 1 commit , 2023-01-01)";
      Nl;
      Print Text "                                      - ";
      Print Sha "7a8b9c "; Print Text "wip"; Nl]).
Proof. reflexivity. Qed.

(** C9. With a project name that does not resolve, the per-project report
    is skipped and [printLocalInfo] returns normally, but the overview is
    not skipped: [NoSuchProjectError] leaves [printOverview], and
    [Execute] with it. *)
Theorem C9_unresolved_project :
  printLocalInfo Demo.git Demo.heap Demo.GetProjects
    (Options.mk true false false) ["nope"] Demo.start = (Ok tt, Demo.start) /\
  printOverview Demo.heap Demo.GetProjects
    (Options.mk false true false) ["nope"] Demo.start
    = (Raise NoSuchProjectError, Demo.start) /\
  fst (Execute Demo.git Demo.heap Demo.GetProjects Demo.manifest
         (Options.mk true false false) ["nope"] Demo.start) = Ok tt /\
  fst (Execute Demo.git Demo.heap Demo.GetProjects Demo.manifest
         (Options.mk false true false) ["nope"] Demo.start)
    = Raise NoSuchProjectError.
Proof. repeat split; reflexivity. Qed.


(* ================================================================== *)
(** * Part III. Further properties *)
(* ================================================================== *)

(** ** Lines and tokens *)

Module PyStrMore.

Lemma no_eol_cons (c : ascii) (s : string) :
  no_eol (String c s) = negb (is_eol c) && no_eol s.
Proof. reflexivity. Qed.

Lemma is_eol_split (c : ascii) :
  is_eol c = false <-> Ascii.eqb c LF = false /\ Ascii.eqb c CR = false.
Proof. unfold is_eol. apply orb_false_iff. Qed.

(** Induction on a string that also gives the statement for the string
    with one more character in front, as [splitlines] looks two
    characters ahead. *)
Lemma splitlines_ind2 (P : string -> Prop) :
  P "" ->
  (forall c, P (String c "")) ->
  (forall c d s, P s -> P (String d s) -> P (String c (String d s))) ->
  forall s, P s.
Proof.
  intros H0 H1 H2 s.
  enough (G : P s /\ forall c, P (String c s)) by apply G.
  induction s as [|d s [IH1 IH2]].
  - split; [exact H0 | exact H1].
  - split; [apply IH2|]. intros c. apply H2; [exact IH1 | apply IH2].
Qed.

Lemma splitlines_cons (c : ascii) (s : string) :
  splitlines (String c s) =
  if Ascii.eqb c LF then "" :: splitlines s
  else if Ascii.eqb c CR then
    match s with
    | String d s'' =>
        if Ascii.eqb d LF then "" :: splitlines s'' else "" :: splitlines s
    | "" => [""]
    end
  else
    match splitlines s with
    | [] => [String c ""]
    | l :: ls => String c l :: ls
    end.
Proof. reflexivity. Qed.

(** No line holds an end-of-line byte. *)
Lemma splitlines_no_eol (s : string) :
  Forall (fun l => no_eol l = true) (splitlines s).
Proof.
  induction s as [|c|c d s IH1 IH2] using splitlines_ind2.
  - constructor.
  - cbn [splitlines]. destruct (Ascii.eqb c LF) eqn:E1; [repeat constructor|].
    destruct (Ascii.eqb c CR) eqn:E2; [repeat constructor|].
    repeat constructor. rewrite no_eol_cons. unfold is_eol.
    now rewrite E1, E2.
  - rewrite splitlines_cons.
    destruct (Ascii.eqb c LF) eqn:E1; [constructor; [reflexivity | exact IH2]|].
    destruct (Ascii.eqb c CR) eqn:E2.
    + destruct (Ascii.eqb d LF); constructor; auto.
    + destruct (splitlines (String d s)) as [|l ls] eqn:S.
      * repeat constructor. rewrite no_eol_cons. unfold is_eol.
        now rewrite E1, E2.
      * inversion IH2 as [|? ? Hl Hls]; subst. constructor; [|exact Hls].
        rewrite no_eol_cons, Hl. unfold is_eol. now rewrite E1, E2.
Qed.

(** Splitting into lines loses the line terminators and nothing else. *)
Lemma splitlines_glue (s : string) :
  glue (splitlines s) = remove_if is_eol s.
Proof.
  induction s as [|c|c d s IH1 IH2] using splitlines_ind2.
  - reflexivity.
  - cbn [splitlines remove_if]. unfold is_eol.
    destruct (Ascii.eqb c LF); [reflexivity|].
    destruct (Ascii.eqb c CR); reflexivity.
  - rewrite splitlines_cons.
    change (remove_if is_eol (String c (String d s)))
      with (if is_eol c then remove_if is_eol (String d s)
            else String c (remove_if is_eol (String d s))).
    unfold is_eol at 1 2.
    destruct (Ascii.eqb c LF) eqn:E1; [exact IH2|].
    destruct (Ascii.eqb c CR) eqn:E2; cbn [orb].
    + destruct (Ascii.eqb d LF) eqn:E3; [|exact IH2].
      cbn [glue append remove_if]. unfold is_eol. rewrite E3. exact IH1.
    + rewrite <- IH2. destruct (splitlines (String d s)); reflexivity.
Qed.

(** Splitting into tokens loses the whitespace and nothing else. *)
Lemma split_glue (s : string) : glue (split s) = remove_if isspace s.
Proof.
  induction s as [|c s IH]; [reflexivity|].
  rewrite PyStrFacts.split_cons. cbn [remove_if].
  destruct (isspace c); [exact IH|]. rewrite <- IH.
  destruct (split s) as [|w ws]; [reflexivity|].
  destruct (starts_ws s); reflexivity.
Qed.

(** Tokens joined with single spaces split back into the same tokens. *)
Lemma split_join (ws : list string) :
  Forall (fun w => is_token w = true) ws -> split (join " " ws) = ws.
Proof.
  induction 1 as [|w ws Hw Hws IH]; [reflexivity|].
  destruct ws as [|w' ws].
  - now apply PyStrFacts.split_token.
  - change (join " " (w :: w' :: ws))
      with (w ++ String " " (join " " (w' :: ws))).
    rewrite (@PyStrFacts.split_token_app w " " _ Hw eq_refl), IH.
    reflexivity.
Qed.

(** Tokens joined with single spaces: no other whitespace, none at the
    ends. *)
Lemma join_shape (ws : list string) :
  Forall (fun w => is_token w = true) ws ->
  only_single_spaces (join " " ws) = true /\ trimmed (join " " ws) = true.
Proof.
  intros H. apply PyStrFacts.rejoin_fixed_iff.
  unfold rejoin. now rewrite split_join.
Qed.

Lemma remove_if_app (f : ascii -> bool) (s t : string) :
  remove_if f (s ++ t) = remove_if f s ++ remove_if f t.
Proof.
  induction s as [|c s IH]; [reflexivity|]. simpl.
  destruct (f c); simpl; now rewrite IH.
Qed.

Lemma append_nil_r (s : string) : s ++ "" = s.
Proof. induction s as [|c s IH]; simpl; [|rewrite IH]; reflexivity. Qed.

Lemma remove_ws_join (ws : list string) :
  remove_if isspace (join " " ws) = remove_if isspace (glue ws).
Proof.
  induction ws as [|w ws IH]; [reflexivity|].
  destruct ws as [|w' ws]; [simpl; now rewrite append_nil_r|].
  change (join " " (w :: w' :: ws))
    with (w ++ String " " (join " " (w' :: ws))).
  cbn [glue] in *. rewrite !remove_if_app. cbn [remove_if isspace].
  now rewrite IH, remove_if_app.
Qed.

Lemma remove_if_idem (f : ascii -> bool) (s : string) :
  remove_if f (remove_if f s) = remove_if f s.
Proof.
  induction s as [|c s IH]; [reflexivity|]. simpl.
  destruct (f c) eqn:E; [exact IH|]. simpl. now rewrite E, IH.
Qed.

End PyStrMore.

(** ** What the divergence analysis keeps of the query output *)

Section DivergenceLines.

Variable World : Type.
Variable git : World -> addr -> list string -> GitResult * World.
Variable heap : addr -> Project.t.
Implicit Types (st : State World) (p : addr).

(** The two commit sequences hold every byte git printed for the two
    range queries except the line terminators, and no entry holds a
    terminator. *)
Theorem analyzeDivergence_lines p st :
  exists d st' r1 r2 r3 r4,
    analyzeDivergence git heap p st = (Ok d, st') /\
    issued st' =
    (issued st ++
     [(p, ["fetch"; "--all"], r1); (p, ["branch"; "-r"], r2);
      (p, local_query (logTarget d), r3);
      (p, remote_query (logTarget d), r4)])%list /\
    Forall (fun l => no_eol l = true) (localCommits d) /\
    Forall (fun l => no_eol l = true) (originCommits d) /\
    glue (localCommits d) = remove_if is_eol (stdout r3) /\
    glue (originCommits d) = remove_if is_eol (stdout r4).
Proof.
  rewrite analyzeDivergence_run. do 6 eexists.
  split; [reflexivity|]. split; [reflexivity|].
  cbn [localCommits originCommits].
  repeat split;
    first [apply PyStrMore.splitlines_no_eol | apply PyStrMore.splitlines_glue].
Qed.

(** With no remote branch listed and nothing ahead or behind, the report
    is made against the bare revision and shows two counts of 0. *)
Theorem no_remotes_degraded p st :
  let rev := Project.revisionExpr (heap p) in
  let a1 := git (world st) p ["fetch"; "--all"] in
  let a2 := git (snd a1) p ["branch"; "-r"] in
  let a3 := git (snd a2) p ["log"; "--pretty=oneline"; rev ++ ".."] in
  let a4 := git (snd a3) p ["log"; "--pretty=oneline"; ".." ++ rev] in
  stdout (fst a2) = "" ->
  stdout (fst a3) = "" ->
  stdout (fst a4) = "" ->
  findRemoteLocalDiff git heap p st =
  (Ok tt,
   mkState (snd a4)
     (issued st ++
      [(p, ["fetch"; "--all"], fst a1); (p, ["branch"; "-r"], fst a2);
       (p, ["log"; "--pretty=oneline"; (rev ++ "..")%string], fst a3);
       (p, ["log"; "--pretty=oneline"; (".." ++ rev)%string], fst a4)])%list
     (output st ++
      [Print Heading "Local Commits: "; Print Redtext "0";
       Print Dimtext " (on current branch)"; Nl;
       Print Text "----------------------------"; Nl;
       Print Heading "Remote Commits: "; Print Redtext "0"; Nl])%list).
Proof.
  intros rev a1 a2 a3 a4 E2 E3 E4.
  pose proof (analyzeDivergence_run git heap p st) as A. cbv zeta in A.
  fold a1 in A. fold a2 in A. rewrite E2 in A. cbn [splitlines isOnBranch] in A.
  fold rev in A. unfold local_query, remote_query in A.
  fold a3 in A. fold a4 in A. rewrite E3, E4 in A. cbn [splitlines] in A.
  rewrite (findRemoteLocalDiff_run _ _ _ _ A). reflexivity.
Qed.

End DivergenceLines.

(** [no_remotes_degraded] on checkout 1 of a workspace without remotes. *)
Lemma no_remotes_degraded_witness :
  findRemoteLocalDiff Demo.blank_git Demo.heap 1 Demo.blank_start =
  (Ok tt,
   mkState tt
     [(1, ["fetch"; "--all"], mkGitResult 0 "" "");
      (1, ["branch"; "-r"], mkGitResult 0 "" "");
      (1, ["log"; "--pretty=oneline"; "master.."], mkGitResult 0 "" "");
      (1, ["log"; "--pretty=oneline"; "..master"], mkGitResult 0 "" "")]
     [Print Heading "Local Commits: "; Print Redtext "0";
      Print Dimtext " (on current branch)"; Nl;
      Print Text "----------------------------"; Nl;
      Print Heading "Remote Commits: "; Print Redtext "0"; Nl]).
Proof.
  apply (@no_remotes_degraded unit Demo.blank_git Demo.heap 1 Demo.blank_start);
    reflexivity.
Defined.

(** ** What rendering keeps of a commit line *)

Section CommitRendering.

Variable World : Type.
Implicit Types (st : State World) (c : string).

Lemma has_token_first c :
  has_token c = true -> exists h rest, split c = h :: rest.
Proof.
  rewrite has_token_split. destruct (split c) as [|h rest]; [discriminate|].
  eauto.
Qed.

(** A rendered commit line shows every non-blank character of the line, in
    order: the hash is a token, the subject has single spaces only and
    none at its ends, and hash and subject together are the line without
    its whitespace. *)
Theorem commit_rendering_keeps_text c st :
  has_token c = true ->
  exists h subj,
    printCommit c st =
      (Ok tt, write st [Print Sha (h ++ " "); Print Text subj; Nl]) /\
    is_token h = true /\
    only_single_spaces subj = true /\
    trimmed subj = true /\
    remove_if isspace (h ++ subj) = remove_if isspace c.
Proof.
  intros H. destruct (has_token_first c H) as [h [rest S]].
  pose proof (PyStrFacts.split_tokens c) as T. rewrite S in T.
  inversion T as [|? ? Hh Hrest]; subst.
  exists h, (join " " rest).
  rewrite printCommit_run. unfold commit_events. rewrite S.
  split; [reflexivity|]. split; [exact Hh|].
  destruct (PyStrMore.join_shape Hrest) as [A B].
  split; [exact A|]. split; [exact B|].
  rewrite <- (PyStrMore.split_glue c), S. cbn [glue].
  rewrite PyStrMore.remove_if_app, <- !PyStrMore.split_glue.
  rewrite (PyStrFacts.split_token h Hh), (PyStrMore.split_join Hrest).
  cbn [glue]. now rewrite PyStrMore.append_nil_r.
Qed.

(** Rendering is idempotent: the printed hash and subject, put together
    as a line, are rendered as they were. *)
Theorem commit_rendering_idempotent c st :
  has_token c = true ->
  exists h subj,
    printCommit c st =
      (Ok tt, write st [Print Sha (h ++ " "); Print Text subj; Nl]) /\
    printCommit (h ++ " " ++ subj) st = printCommit c st /\
    printOverviewCommit (h ++ " " ++ subj) st = printOverviewCommit c st.
Proof.
  intros H. destruct (has_token_first c H) as [h [rest S]].
  pose proof (PyStrFacts.split_tokens c) as T. rewrite S in T.
  inversion T as [|? ? Hh Hrest]; subst.
  exists h, (join " " rest).
  assert (S' : split (h ++ " " ++ join " " rest) = h :: rest).
  { change (h ++ " " ++ join " " rest) with (h ++ String " " (join " " rest)).
    rewrite (@PyStrFacts.split_token_app h " " _ Hh eq_refl).
    now rewrite (PyStrMore.split_join Hrest). }
  rewrite !printCommit_run, !printOverviewCommit_run.
  unfold commit_events. rewrite S, S'. repeat split.
Qed.

End CommitRendering.

(** [commit_rendering_keeps_text] on a line with runs of spaces. *)
Lemma commit_rendering_keeps_text_witness :
  exists h subj,
    printCommit "1a2b3c  add   the parser " Demo.blank_start =
      (Ok tt, write Demo.blank_start
                [Print Sha (h ++ " "); Print Text subj; Nl]) /\
    is_token h = true /\
    only_single_spaces subj = true /\
    trimmed subj = true /\
    remove_if isspace (h ++ subj)
    = remove_if isspace "1a2b3c  add   the parser ".
Proof.
  apply (@commit_rendering_keeps_text unit "1a2b3c  add   the parser "
           Demo.blank_start).
  reflexivity.
Defined.

(** [commit_rendering_idempotent] on the same line. *)
Lemma commit_rendering_idempotent_witness :
  exists h subj,
    printCommit "1a2b3c  add   the parser " Demo.blank_start =
      (Ok tt, write Demo.blank_start
                [Print Sha (h ++ " "); Print Text subj; Nl]) /\
    printCommit (h ++ " " ++ subj) Demo.blank_start
    = printCommit "1a2b3c  add   the parser " Demo.blank_start /\
    printOverviewCommit (h ++ " " ++ subj) Demo.blank_start
    = printOverviewCommit "1a2b3c  add   the parser " Demo.blank_start.
Proof.
  apply (@commit_rendering_idempotent unit "1a2b3c  add   the parser "
           Demo.blank_start).
  reflexivity.
Defined.

(** ** Branch names *)

(** Cleaning a branch line twice is cleaning it once: a name
    [localBranches] returned comes back unchanged when listed again. *)
Theorem branch_name_idempotent (line : string) :
  branch_name (branch_name line) = branch_name line.
Proof.
  destruct (branch_name_spec line) as (A & B & _).
  unfold branch_name at 1.
  rewrite (@PyStrFacts.replace_absent "*" "" _ A).
  now apply PyStrFacts.strip_fixed.
Qed.

(** ** The per-project report *)

Section LocalReport.

Variable World : Type.
Variable git : World -> addr -> list string -> GitResult * World.
Variable heap : addr -> Project.t.
Variable GetProjects : list string -> Result (list addr).
Variable manifest : Manifest.
Implicit Types (st : State World) (p : addr) (opt : Options.t)
  (args : list string) (projs : list addr).

(** The state once the four lines of a project are written. *)
Lemma printProject_run opt p st :
  printProject git heap opt p st =
  (if Options.all opt then findRemoteLocalDiff git heap p else ret tt)
    (mkState (snd (git (world st) p ["branch"]))
       (issued st ++ [(p, ["branch"], fst (git (world st) p ["branch"]))])%list
       (output st ++ project_events heap p (names_in git (world st) p))%list).
Proof.
  unfold printProject, localBranches, heading, headtext, redtext, text, nl.
  unfold bind at 1 2 3 4 5 6 7 8 9. rewrite !emit_run.
  unfold bind at 1 2, ret at 1. rewrite GitCommand_run.
  unfold bind at 1 2 3 4 5 6. rewrite !emit_run, !write_write.
  rewrite PyStrFacts.append_each_map.
  unfold write. cbn [world issued output]. rewrite <- !app_assoc.
  reflexivity.
Qed.

Lemma for_app {A : Type} (xs ys : list A) (body : A -> M World unit) st :
  for_ (xs ++ ys)%list body st =
  match for_ xs body st with
  | (Ok _, st1) => for_ ys body st1
  | (Raise e, st1) => (Raise e, st1)
  end.
Proof.
  revert st. induction xs as [|x xs IH]; intros st; [reflexivity|].
  rewrite <- app_comm_cons. cbn [for_]. unfold bind.
  destruct (body x st) as [[[]|e] st1].
  - apply IH.
  - reflexivity.
Qed.

(** Without [-a] the report cannot fail and asks git for nothing but the
    local branches: one [git branch] per project, in the order of the
    projects, and four lines of text for each. *)
Theorem printLocalInfo_brief opt args projs st :
  Options.all opt = false ->
  GetProjects (if (0 <? List.length args)%nat then args else ["."]) = Ok projs ->
  exists st',
    printLocalInfo git heap GetProjects opt args st = (Ok tt, st') /\
    commands (issued st') =
      (commands (issued st) ++ map (fun p => (p, ["branch"])) projs)%list /\
    exists evs,
      output st' = (output st ++ evs)%list /\
      List.length (filter (fun e => match e with Nl => true | _ => false end) evs)
      = 4 * List.length projs.
Proof.
  intros Ha G. unfold printLocalInfo. rewrite G. clear G. revert st.
  induction projs as [|p ps IH]; intros st.
  - exists st. split; [reflexivity|]. cbn [map]. rewrite app_nil_r.
    split; [reflexivity|]. exists []. now rewrite app_nil_r.
  - cbn [for_]. unfold bind. rewrite printProject_run, Ha. unfold ret.
    match goal with |- context [for_ ps _ ?s] => destruct (IH s) as (st' & R & C & evs & O & N) end.
    exists st'. split; [exact R|]. cbn [issued output] in C, O.
    split.
    + rewrite C. unfold commands. rewrite map_app, <- app_assoc. reflexivity.
    + eexists. split; [rewrite O, <- app_assoc; reflexivity|].
      rewrite filter_app, length_app, N. unfold project_events.
      simpl. generalize (List.length ps). intros n. lia.
Qed.

(** An exception in the report of one project ends the run: the projects
    after it are not reported and no command is issued for them. *)
Theorem printLocalInfo_abort opt args (before after : list addr) p (e : exn)
    st st1 st2 :
  GetProjects (if (0 <? List.length args)%nat then args else ["."])
  = Ok (before ++ p :: after)%list ->
  for_ before (printProject git heap opt) st = (Ok tt, st1) ->
  printProject git heap opt p st1 = (Raise e, st2) ->
  printLocalInfo git heap GetProjects opt args st = (Raise e, st2).
Proof.
  intros G B F. unfold printLocalInfo. rewrite G, for_app, B.
  cbn [for_]. unfold bind. now rewrite F.
Qed.

(** *** Text is only ever added *)

Lemma grows_ret {A : Type} (a : A) : grows (ret (World := World) a).
Proof. intros st. exists []. simpl. now rewrite app_nil_r. Qed.

Lemma grows_raise {A : Type} (e : exn) : grows (raise (World := World) (A := A) e).
Proof. intros st. exists []. simpl. now rewrite app_nil_r. Qed.

Lemma grows_emit (o : Out) : grows (emit (World := World) o).
Proof. intros st. exists [o]. reflexivity. Qed.

Lemma grows_GitCommand p args : grows (GitCommand git p args).
Proof.
  intros st. exists []. rewrite GitCommand_run. simpl. now rewrite app_nil_r.
Qed.

Lemma grows_bind {A B : Type} (m : M World A) (k : A -> M World B) :
  grows m -> (forall a, grows (k a)) -> grows (bind m k).
Proof.
  intros Hm Hk st. destruct (Hm st) as [evs E]. unfold bind.
  destruct (m st) as [[a|e] st1]; cbn [snd] in E.
  - destruct (Hk a st1) as [evs' E']. exists (evs ++ evs')%list.
    now rewrite E', E, app_assoc.
  - exists evs. exact E.
Qed.

Lemma grows_for {A : Type} (xs : list A) (body : A -> M World unit) :
  (forall x, grows (body x)) -> grows (for_ xs body).
Proof.
  intros H. induction xs as [|x xs IH]; cbn [for_].
  - apply grows_ret.
  - apply grows_bind; [apply H | intros _; exact IH].
Qed.

Lemma grows_findRemoteLocalDiff p : grows (findRemoteLocalDiff git heap p).
Proof.
  intros st. pose proof (analyzeDivergence_run git heap p st) as A.
  cbv zeta in A. rewrite (findRemoteLocalDiff_run _ _ _ _ A).
  eexists. reflexivity.
Qed.

Lemma grows_printProject opt p : grows (printProject git heap opt p).
Proof.
  intros st. rewrite printProject_run. destruct (Options.all opt).
  - match goal with |- context [findRemoteLocalDiff _ _ _ ?s] =>
      destruct (grows_findRemoteLocalDiff p s) as [evs E] end.
    cbn [output] in E. eexists. rewrite E, <- app_assoc. reflexivity.
  - eexists. reflexivity.
Qed.

Lemma grows_printLocalInfo opt args :
  grows (printLocalInfo git heap GetProjects opt args).
Proof.
  unfold printLocalInfo.
  destruct (GetProjects _) as [projs|[]];
    first [apply grows_for; intros p; apply grows_printProject
          | apply grows_ret | apply grows_raise].
Qed.

Lemma grows_printOverview opt args :
  grows (printOverview (World := World) heap GetProjects opt args).
Proof.
  intros st. unfold printOverview. destruct (GetProjects args) as [projs|e].
  - rewrite renderOverview_run.
    destruct (collectBranches heap opt projs).
    + exists []. simpl. now rewrite app_nil_r.
    + eexists. reflexivity.
  - exists []. simpl. now rewrite app_nil_r.
Qed.

(** Whatever the mode and however the run ends, [Execute] leaves the text
    written before it in place and adds the two manifest lines first. *)
Theorem Execute_header_first opt args st :
  exists evs,
    output (snd (Execute git heap GetProjects manifest opt args st)) =
    (output st ++ manifest_events manifest ++ evs)%list.
Proof.
  rewrite Execute_run. fold (manifest_events manifest).
  destruct (negb (Options.overview opt)).
  - destruct (grows_printLocalInfo opt args (write st (manifest_events manifest)))
      as [evs E].
    exists evs. rewrite E. cbn [write output]. now rewrite app_assoc.
  - destruct (grows_printOverview opt args (write st (manifest_events manifest)))
      as [evs E].
    exists evs. rewrite E. cbn [write output]. now rewrite app_assoc.
Qed.

(** [-b] means nothing to the per-project report and [-a] nothing to the
    overview. *)
Theorem Execute_ignored_options (a a' b b' : bool) args st :
  Execute git heap GetProjects manifest (Options.mk a false b) args st =
  Execute git heap GetProjects manifest (Options.mk a false b') args st /\
  Execute git heap GetProjects manifest (Options.mk a true b) args st =
  Execute git heap GetProjects manifest (Options.mk a' true b) args st.
Proof. split; reflexivity. Qed.

End LocalReport.

(** [printLocalInfo_brief] on the three checkouts of the workspace. *)
Lemma printLocalInfo_brief_witness :
  exists st',
    printLocalInfo Demo.git Demo.heap Demo.GetProjects
      (Options.mk false false false) [] Demo.start = (Ok tt, st') /\
    commands (issued st') =
      (commands (issued Demo.start) ++
       map (fun p => (p, ["branch"])) [1; 2; 3])%list /\
    exists evs,
      output st' = (output Demo.start ++ evs)%list /\
      List.length (filter (fun e => match e with Nl => true | _ => false end) evs)
      = 4 * List.length [1; 2; 3].
Proof.
  apply (@printLocalInfo_brief bool Demo.git Demo.heap Demo.GetProjects
           (Options.mk false false false) [] [1; 2; 3] Demo.start);
    reflexivity.
Defined.

(** [printLocalInfo_abort] with [-a] on checkouts 1, 3 and 2 in that order:
    the log of checkout 3 holds an empty line, and checkout 2 is never
    reached. *)
Lemma printLocalInfo_abort_witness :
  printLocalInfo Demo.blank_git Demo.heap (fun _ => Ok [1; 3; 2])
    (Options.mk true false false) [] Demo.blank_start =
  (Raise IndexError,
   snd (printProject Demo.blank_git Demo.heap (Options.mk true false false) 3
          (snd (for_ [1] (printProject Demo.blank_git Demo.heap
                            (Options.mk true false false))
                     Demo.blank_start)))).
Proof.
  apply (@printLocalInfo_abort unit Demo.blank_git Demo.heap
           (fun _ => Ok [1; 3; 2]) (Options.mk true false false) []
           [1] [2] 3 IndexError Demo.blank_start
           (snd (for_ [1] (printProject Demo.blank_git Demo.heap
                             (Options.mk true false false))
                      Demo.blank_start))
           (snd (printProject Demo.blank_git Demo.heap
                   (Options.mk true false false) 3
                   (snd (for_ [1] (printProject Demo.blank_git Demo.heap
                                     (Options.mk true false false))
                              Demo.blank_start)))));
    vm_compute; reflexivity.
Defined.

(** ** The overview *)

Section OverviewMore.

Variable World : Type.
Variable heap : addr -> Project.t.
Variable GetProjects : list string -> Result (list addr).
Implicit Types (st : State World) (p : addr) (opt : Options.t)
  (args : list string) (projs : list addr) (x : ReviewableBranch.t).

Lemma truthy_length {A : Type} (l : list (option A)) :
  List.length (truthy l) <= List.length l.
Proof. induction l as [|[a|] l IH]; simpl; lia. Qed.

Lemma filter_length_le {A : Type} (f : A -> bool) (l : list A) :
  List.length (filter f l) <= List.length l.
Proof. induction l as [|a l IH]; simpl; [|destruct (f a); simpl]; lia. Qed.

(** A project never contributes more branches than its registry has keys,
    and [-b] takes branches away, never adds any: per project, the
    branches listed with [-b] are those listed without it that are the
    current branch. *)
Theorem current_branch_only_removes (a o a' o' : bool) p :
  List.length (projectBranches heap (Options.mk a' o' false) p)
    <= List.length (Project.GetBranches_keys (heap p)) /\
  projectBranches heap (Options.mk a o true) p =
    filter (is_current heap p) (projectBranches heap (Options.mk a' o' false) p) /\
  List.length (projectBranches heap (Options.mk a o true) p)
    <= List.length (projectBranches heap (Options.mk a' o' false) p).
Proof.
  unfold projectBranches. cbn [Options.current_branch]. split; [|split].
  - etransitivity; [apply truthy_length|]. now rewrite length_map.
  - reflexivity.
  - apply filter_length_le.
Qed.

(** On a detached HEAD no branch is the current one: with [-b] such a
    project contributes nothing, and an overview of such projects alone
    writes nothing and ends normally. *)
Theorem detached_head_current_branch (a o : bool) args projs st :
  GetProjects args = Ok projs ->
  Forall (fun p => Project.CurrentBranch (heap p) = None) projs ->
  Forall (fun p => projectBranches heap (Options.mk a o true) p = []) projs /\
  printOverview heap GetProjects (Options.mk a o true) args st = (Ok tt, st).
Proof.
  intros G D.
  assert (E : Forall (fun p => projectBranches heap (Options.mk a o true) p = [])
                     projs).
  { apply Forall_forall. intros p Hp. rewrite Forall_forall in D.
    unfold projectBranches. cbn [Options.current_branch].
    generalize (truthy (map (fun k => Project.GetUploadableBranch (heap p) k)
                            (Project.GetBranches_keys (heap p)))).
    intros l. induction l as [|x l IH]; [reflexivity|].
    cbn [filter]. unfold is_current at 1. now rewrite (D p Hp). }
  split; [exact E|].
  unfold printOverview. rewrite G, collectBranches_flat_map.
  replace (flat_map (projectBranches heap (Options.mk a o true)) projs)
    with (@nil ReviewableBranch.t); [reflexivity|].
  clear G D. induction E as [|p ps Hp _ IH]; [reflexivity|].
  cbn [flat_map]. now rewrite Hp, <- IH.
Qed.

Lemma overview_result_ok (all : list ReviewableBranch.t) (prev : option addr) :
  (exists last, overview_result prev all = Ok last) <->
  forallb (fun b => forallb has_token (ReviewableBranch.commits b)) all = true.
Proof.
  revert prev. induction all as [|x rest IH]; intros prev;
    cbn [overview_result forallb].
  - split; eauto.
  - destruct (forallb has_token (ReviewableBranch.commits x)); cbn [andb].
    + apply IH.
    + split; [intros [last H]; discriminate | discriminate].
Qed.

Lemma overview_result_raise (all : list ReviewableBranch.t) (prev : option addr)
    (e : exn) :
  overview_result prev all = Raise e -> e = IndexError.
Proof.
  revert prev. induction all as [|x rest IH]; intros prev;
    cbn [overview_result]; [discriminate|].
  destruct (forallb has_token (ReviewableBranch.commits x)).
  - apply IH.
  - congruence.
Qed.

(** Once the projects are resolved, the overview ends normally exactly
    when every commit line of every branch it lists holds a token; when it
    does not, it ends with [IndexError]. *)
Theorem printOverview_completion opt args projs st :
  GetProjects args = Ok projs ->
  (fst (printOverview heap GetProjects opt args st) = Ok tt <->
   forallb (fun b => forallb has_token (ReviewableBranch.commits b))
           (collectBranches heap opt projs) = true) /\
  (fst (printOverview heap GetProjects opt args st) = Ok tt \/
   fst (printOverview heap GetProjects opt args st) = Raise IndexError).
Proof.
  intros G. unfold printOverview. rewrite G, renderOverview_run.
  destruct (collectBranches heap opt projs) as [|x rest] eqn:C.
  - split; [split; reflexivity | left; reflexivity].
  - cbn [fst].
    pose proof (overview_result_ok (x :: rest) None) as K.
    destruct (overview_result None (x :: rest)) as [last|e] eqn:R.
    + split; [|left; reflexivity].
      split; [intros _; apply K; eauto | reflexivity].
    + apply overview_result_raise in R. subst e.
      split; [|right; reflexivity].
      split; [discriminate|]. intros F. apply K in F.
      destruct F as [last F]. discriminate.
Qed.

End OverviewMore.

(** [detached_head_current_branch] on checkout 3, which has an uploadable
    branch but no current branch. *)
Lemma detached_head_current_branch_witness :
  Forall (fun p => projectBranches Demo.heap (Options.mk false true true) p = [])
         [3] /\
  printOverview Demo.heap Demo.GetProjects (Options.mk false true true)
    ["tools"] Demo.start = (Ok tt, Demo.start).
Proof.
  apply (@detached_head_current_branch bool Demo.heap Demo.GetProjects
           false true ["tools"] [3] Demo.start).
  - reflexivity.
  - repeat constructor.
Defined.

(** [printOverview_completion] on checkouts 1 and 2, whose commit lines all
    hold a token. *)
Lemma printOverview_completion_witness :
  (fst (printOverview Demo.heap Demo.GetProjects (Options.mk false true false)
          ["build"; "docs"] Demo.start) = Ok tt <->
   forallb (fun b => forallb has_token (ReviewableBranch.commits b))
           (collectBranches Demo.heap (Options.mk false true false) [1; 2])
   = true) /\
  (fst (printOverview Demo.heap Demo.GetProjects (Options.mk false true false)
          ["build"; "docs"] Demo.start) = Ok tt \/
   fst (printOverview Demo.heap Demo.GetProjects (Options.mk false true false)
          ["build"; "docs"] Demo.start) = Raise IndexError).
Proof.
  apply (@printOverview_completion bool Demo.heap Demo.GetProjects
           (Options.mk false true false) ["build"; "docs"] [1; 2] Demo.start).
  reflexivity.
Defined.

(** ** The branch line of the overview *)

Section BranchLine.

Variable heap : addr -> Project.t.

Lemma length_append (s t : string) :
  String.length (s ++ t) = String.length s + String.length t.
Proof. induction s as [|c s IH]; simpl; [|rewrite IH]; reflexivity. Qed.

Lemma append_assoc (s t u : string) : (s ++ t) ++ u = s ++ t ++ u.
Proof. induction s as [|c s IH]; simpl; [|rewrite IH]; reflexivity. Qed.

Lemma length_spaces (n : nat) : String.length (spaces n) = n.
Proof. induction n as [|n IH]; simpl; [|rewrite IH]; reflexivity. Qed.

Lemma length_ljust (w : nat) (s : string) :
  String.length (ljust w s) = Nat.max w (String.length s).
Proof. unfold ljust. rewrite length_append, length_spaces. lia. Qed.

Lemma length_rjust (w : nat) (s : string) :
  String.length (rjust w s) = Nat.max w (String.length s).
Proof. unfold rjust. rewrite length_append, length_spaces. lia. Qed.

(** The branch line cuts nothing off: the name and the count are padded to
    33 and 2 columns and take more when they are longer, so the line is
    as long as its fixed parts, the padded name, the padded count and the
    date; it starts with the current-branch marker and the name. *)
Theorem branchLine_length (p : addr) (b : ReviewableBranch.t) :
  String.length (branchLine heap p b) =
    15 + Nat.max 33 (String.length (ReviewableBranch.name b))
       + Nat.max 2 (String.length (str (List.length (ReviewableBranch.commits b))))
       + String.length (ReviewableBranch.date b) /\
  exists rest,
    branchLine heap p b =
    (if is_current heap p b then "*" else " ") ++ " " ++
    ReviewableBranch.name b ++ rest.
Proof.
  unfold branchLine. split.
  - rewrite !length_append, length_ljust, length_rjust.
    destruct (is_current heap p b);
      destruct (negb (List.length (ReviewableBranch.commits b) =? 1)%nat);
      cbn [String.length]; lia.
  - unfold ljust. eexists. rewrite append_assoc. reflexivity.
Qed.

End BranchLine.

(** ** How the divergence report ends *)

Section DivergenceCompletion.

Variable World : Type.
Implicit Types (st : State World) (d : DivergenceResult).

Lemma commits_events_no_heading (lines : list string) (s : string) :
  ~ In (Print Heading s) (commits_events lines).
Proof.
  unfold commits_events. intros H. apply in_flat_map in H.
  destruct H as [c [_ H]]. unfold commit_events in H.
  destruct (split c) as [|h rest]; [exact H|].
  simpl in H. intuition discriminate.
Qed.

(** The report ends normally exactly when every line of both queries holds
    a token, and with [IndexError] otherwise. The count of local commits
    is always written, blank lines counted; the part on the remote commits
    is written exactly when every local line holds a token. *)
Theorem printDivergence_completion d st :
  (fst (printDivergence d st) = Ok tt <->
   forallb has_token (localCommits d ++ originCommits d)%list = true) /\
  (fst (printDivergence d st) = Ok tt \/
   fst (printDivergence d st) = Raise IndexError) /\
  exists evs,
    output (snd (printDivergence d st)) =
      (output st ++ local_heading (List.length (localCommits d)) ++ evs)%list /\
    (In (Print Heading "Remote Commits: ") evs <->
     forallb has_token (localCommits d) = true).
Proof.
  rewrite printDivergence_run. cbn [fst snd write output].
  unfold divergence_outcome, divergence_events, loop_outcome.
  rewrite forallb_app.
  destruct (forallb has_token (localCommits d)) eqn:L; cbn [andb].
  - destruct (forallb has_token (originCommits d)) eqn:R.
    + split; [tauto|]. split; [now left|]. eexists. split; [reflexivity|].
      split; [reflexivity|]. intros _. apply in_or_app. right.
      unfold remote_heading. simpl. tauto.
    + split; [split; discriminate|]. split; [now right|].
      eexists. split; [reflexivity|]. split; [reflexivity|]. intros _.
      apply in_or_app. right. unfold remote_heading. simpl. tauto.
  - split; [split; discriminate|]. split; [now right|].
    eexists. split; [reflexivity|]. split; [|discriminate].
    intros H. apply in_app_or in H. destruct H as [H|[]].
    now apply commits_events_no_heading in H.
Qed.

End DivergenceCompletion.

(** ** The scan of the remote listing *)

(** The scan stops at the first arrow, yet its answer does not depend on
    where the arrow stands: listings with the same lines in another order
    give the same comparison target. *)
Theorem isOnBranch_permutation (lines lines' : list string) :
  Permutation lines lines' -> isOnBranch lines = isOnBranch lines'.
Proof.
  induction 1 as [|l ls ls' _ IH|l l' ls|ls ls' ls'' _ IH1 _ IH2].
  - reflexivity.
  - cbn [isOnBranch]. now rewrite IH.
  - cbn [isOnBranch]. destruct (contains "->" l), (contains "->" l'); reflexivity.
  - now rewrite IH1.
Qed.

(** [isOnBranch_permutation] on a listing of two lines. *)
Lemma isOnBranch_permutation_witness :
  isOnBranch ["  origin/master"; "  origin/HEAD -> origin/master"] =
  isOnBranch ["  origin/HEAD -> origin/master"; "  origin/master"].
Proof.
  apply (@isOnBranch_permutation
           ["  origin/master"; "  origin/HEAD -> origin/master"]
           ["  origin/HEAD -> origin/master"; "  origin/master"]).
  apply perm_swap.
Defined.
